(** * discord-gyazo-bot: a shallow embedding of [bot.js]

    The bot listens for messages with image attachments, stores each image
    in a staging file, uploads it to Gyazo and answers with the direct
    link.  This development embeds the functions of [bot.js] and settles
    the properties the specification states about them.

    Conventions of the embedding.
    - JavaScript strings are [string]s of 8-bit characters.  The only
      case mapping the bot performs, [toLowerCase], is applied to an
      attachment name that is then compared with six lower-case ASCII
      suffixes, so case folding is modelled on the ASCII letters.
    - Everything outside the process (chat platform, HTTP, file system
      faults, wall clock) is an [Env] of oracles.  Each oracle is asked
      with the number of the request, so that two requests may be answered
      differently.
    - An [async] function is a computation in the monad [M]: it threads
      the [World] and either returns a value or throws.  A rejected promise
      that is awaited is a throw.
    - One run of the handler is followed from start to end; other handlers
      interleaved at its [await]s, and a promise that never settles, are
      not part of the model. *)

From Stdlib Require Import String Ascii ZArith Lia List Bool.
From stdpp Require Import base gmap strings list pretty.
Import ListNotations.

Local Open Scope string_scope.
Local Open Scope list_scope.

(** ** Strings, as the bot uses them *)

Module Js.

(** [s.split(sep)] for a one-character separator: never the empty array. *)
Fixpoint split (sep : ascii) (s : string) : list string :=
  match s with
  | EmptyString => [EmptyString]
  | String c s' =>
      if Ascii.eqb c sep then EmptyString :: split sep s'
      else match split sep s' with
           | [] => [String c EmptyString]
           | seg :: segs => String c seg :: segs
           end
  end.

(** [arr.pop()]: the last element, [undefined] on the empty array. *)
Definition pop (arr : list string) : option string := last arr.

(** Truthiness of a string: non-empty. *)
Definition truthy (s : string) : bool :=
  match s with EmptyString => false | _ => true end.

(** A value that is a string or [undefined] is falsy when it is
    [undefined] or the empty string. *)
Definition falsy (v : option string) : bool :=
  match v with
  | None => true
  | Some s => negb (truthy s)
  end.

(** [v || d] *)
Definition or_else (v : option string) (d : string) : string :=
  match v with
  | None => d
  | Some s => if truthy s then s else d
  end.

Definition lower_char (c : ascii) : ascii :=
  let n := nat_of_ascii c in
  if (65 <=? n)%nat && (n <=? 90)%nat then ascii_of_nat (n + 32) else c.

(** [s.toLowerCase()] *)
Fixpoint toLowerCase (s : string) : string :=
  match s with
  | EmptyString => EmptyString
  | String c s' => String (lower_char c) (toLowerCase s')
  end.

(** [s.endsWith(suf)]: the last [suf.length] characters of [s] are [suf]. *)
Definition endsWith (s suf : string) : bool :=
  (String.length suf <=? String.length s)%nat
  && String.eqb
       (substring (String.length s - String.length suf) (String.length suf) s)
       suf.

End Js.

(** ** The URL resolver *)

(** The part of the upload response the bot reads. *)
Record GyazoResponse := {
  image_id : string;
  url : string
}.

(** [url.split('.').pop() || 'jpg'] *)
Definition extension (u : string) : string :=
  Js.or_else (Js.pop (Js.split "." u)) "jpg".

Definition getDirectImageUrl (gyazoResponse : GyazoResponse) : string :=
  let imageId := image_id gyazoResponse in
  let url := url gyazoResponse in
  let extension := extension url in
  "https://i.gyazo.com/" +:+ imageId +:+ "." +:+ extension.

(** ** Vocabulary of the specification about strings *)

(** [s] has an occurrence of the character [c]. *)
Fixpoint contains (c : ascii) (s : string) : bool :=
  match s with
  | EmptyString => false
  | String a s' => Ascii.eqb a c || contains c s'
  end.

(** The substring of [s] after its last [sep]; all of [s] when [sep] does
    not occur. *)
Fixpoint after_last (sep : ascii) (s : string) : string :=
  match s with
  | EmptyString => EmptyString
  | String c s' =>
      if contains sep s' then after_last sep s'
      else if Ascii.eqb c sep then s' else String c s'
  end.

(** ** Data of the chat platform and of the configuration *)

Record Attachment := {
  att_name : string;
  att_url : string
}.

(** The fields of a [messageCreate] event the handler reads.
    [message.attachments] is a collection iterated in insertion order. *)
Record Message := {
  msg_id : string;
  author_bot : bool;
  channel_id : string;
  attachments : list Attachment
}.

Record Config := {
  token : string;
  gyazoToken : string;
  channelId : string
}.

(** A message the bot has posted: what it says now and what it answers. *)
Record Post := {
  post_content : string;
  post_reply_to : string
}.

(** ** Errors, requests and the environment *)

Inductive JsError :=
| DiscordAPIError
| AxiosError
| StreamError
| FsError.

(** What the process asks of the outside, in the order asked. *)
Inductive Request :=
| ReqReply (to content : string)
| ReqEdit (handle : nat) (content : string)
| ReqMkdir (path : string)
| ReqNow
| ReqDownload (source path : string)
| ReqUpload (credential path : string)
| ReqUnlink (path : string)
| ReqLog (text : string) (e : JsError).

(** How a download ends: the GET is refused, the write stream reports an
    error (a partial file may be left), or the stream is flushed. *)
Inductive Download :=
| GetRejected
| WriteError (partial : bool)
| Finished.

Record Env := {
  chat_accepts : nat -> string -> bool;
  fs_faults : nat -> bool;
  clock : nat -> Z;
  http_get : nat -> string -> Download;
  gyazo_post : nat -> string -> option GyazoResponse
}.

Record World := {
  files : gset string;
  dirs : gset string;
  posts : list Post;
  history : list Request
}.

Definition tick (w : World) : nat := length (history w).

Definition request (r : Request) (w : World) : World :=
  {| files := files w; dirs := dirs w; posts := posts w;
     history := r :: history w |}.

Definition set_files (f : gset string) (w : World) : World :=
  {| files := f; dirs := dirs w; posts := posts w; history := history w |}.

Definition set_dirs (d : gset string) (w : World) : World :=
  {| files := files w; dirs := d; posts := posts w; history := history w |}.

Definition set_posts (p : list Post) (w : World) : World :=
  {| files := files w; dirs := dirs w; posts := p; history := history w |}.

(** ** Computations that may throw *)

Inductive Outcome (A : Type) :=
| Return (a : A)
| Throw (e : JsError).
Arguments Return {A} a.
Arguments Throw {A} e.

Definition M (A : Type) : Type := World -> Outcome A * World.

#[global] Instance M_ret : MRet M := fun A a w => (Return a, w).

#[global] Instance M_bind : MBind M := fun A B k m w =>
  match m w with
  | (Return a, w') => k a w'
  | (Throw e, w') => (Throw e, w')
  end.

Definition throw {A} (e : JsError) : M A := fun w => (Throw e, w).

(** [try { body } catch (error) { handler }] *)
Definition try_catch {A} (body : M A) (handler : JsError -> M A) : M A :=
  fun w =>
    match body w with
    | (Return a, w') => (Return a, w')
    | (Throw e, w') => handler e w'
    end.

(** ** The outside calls *)

Section Calls.
Context (env : Env).

(** [console.error(text, error)] *)
Definition console_error (text : string) (e : JsError) : M unit :=
  fun w => (Return tt, request (ReqLog text e) w).

(** [message.reply(content)]: the handle of the new post. *)
Definition reply (message : Message) (content : string) : M nat :=
  fun w =>
    let w1 := request (ReqReply (msg_id message) content) w in
    if chat_accepts env (tick w) content
    then (Return (length (posts w)),
          set_posts (posts w ++ [ {| post_content := content;
                                     post_reply_to := msg_id message |} ]) w1)
    else (Throw DiscordAPIError, w1).

(** [processingMsg.edit(content)]: the post keeps what it answers. *)
Definition edit (handle : nat) (content : string) : M unit :=
  fun w =>
    let w1 := request (ReqEdit handle content) w in
    if chat_accepts env (tick w) content
    then (Return tt,
          set_posts (alter (fun p => {| post_content := content;
                                        post_reply_to := post_reply_to p |})
                           handle (posts w)) w1)
    else (Throw DiscordAPIError, w1).

(** [fs.existsSync(path)] *)
Definition existsSync (path : string) : M bool :=
  fun w => (Return (bool_decide (path ∈ files w ∪ dirs w)), w).

(** [fs.mkdirSync(path)] *)
Definition mkdirSync (path : string) : M unit :=
  fun w =>
    let w1 := request (ReqMkdir path) w in
    if fs_faults env (tick w) || bool_decide (path ∈ files w ∪ dirs w)
    then (Throw FsError, w1)
    else (Return tt, set_dirs ({[ path ]} ∪ dirs w) w1).

(** [fs.unlinkSync(path)] *)
Definition unlinkSync (path : string) : M unit :=
  fun w =>
    let w1 := request (ReqUnlink path) w in
    if fs_faults env (tick w) || negb (bool_decide (path ∈ files w))
    then (Throw FsError, w1)
    else (Return tt, set_files (files w ∖ {[ path ]}) w1).

(** [Date.now()] *)
Definition date_now : M Z :=
  fun w => (Return (clock env (tick w)), request ReqNow w).

(** [path.join(dir, file)] for a [file] of one segment: the segments
    joined by [/] and a leading [./] dropped. *)
Definition path_join (dir file : string) : string :=
  let joined := dir +:+ "/" +:+ file in
  match joined with
  | String "." (String "/" rest) => rest
  | _ => joined
  end.

Definition downloadImage (source filename : string) : M unit :=
  fun w =>
    let w1 := request (ReqDownload source filename) w in
    match http_get env (tick w) source with
    | GetRejected => (Throw AxiosError, w1)
    | WriteError partial =>
        (Throw StreamError,
         if partial then set_files ({[ filename ]} ∪ files w) w1 else w1)
    | Finished => (Return tt, set_files ({[ filename ]} ∪ files w) w1)
    end.

(** [axios.post('https://upload.gyazo.com/api/upload', form, ...)] *)
Definition axios_post (credential imagePath : string) : M GyazoResponse :=
  fun w =>
    let w1 := request (ReqUpload credential imagePath) w in
    match gyazo_post env (tick w) imagePath with
    | Some data => (Return data, w1)
    | None => (Throw AxiosError, w1)
    end.

Definition uploadToGyazo (config : Config) (imagePath : string)
  : M GyazoResponse :=
  try_catch
    (axios_post (gyazoToken config) imagePath)
    (fun error =>
       console_error "Error uploading to Gyazo:" error;;
       throw error).

Definition cleanupFile (filepath : string) : M unit :=
  try_catch
    (present ← existsSync filepath;
     if present : bool then unlinkSync filepath else mret tt)
    (fun error => console_error "Error cleaning up file:" error).

End Calls.

(** ** The [messageCreate] handler *)

Definition imageExtensions : list string :=
  [".jpg"; ".jpeg"; ".png"; ".gif"; ".webp"; ".bmp"].

Definition isImage (attachment : Attachment) : bool :=
  existsb (fun ext => Js.endsWith (Js.toLowerCase (att_name attachment)) ext)
          imageExtensions.

Definition pendingText : string := "🔄 Uploading image to Gyazo...".
Definition failureText : string :=
  "❌ Failed to upload image to Gyazo. Please try again later.".

Definition codeBlock (s : string) : string := "```" +:+ s +:+ "```".

Section Handler.
Context (env : Env) (config : Config).

Definition stagingName (now : Z) (attachment : Attachment) : string :=
  path_join "./temp" ("temp_" +:+ pretty now +:+ "_" +:+ att_name attachment).

(** "Create temp directory if it doesn't exist". *)
Definition ensureTempDir : M unit :=
  let tempDir := "./temp" in
  present ← existsSync tempDir;
  if negb present then mkdirSync env tempDir else mret tt.

(** The body of the [try] block. *)
Definition processImage (message : Message) (attachment : Attachment)
  : M unit :=
  processingMsg ← reply env message pendingText;
  ensureTempDir;;
  now ← date_now env;
  let tempFilename := stagingName now attachment in
  downloadImage env (att_url attachment) tempFilename;;
  gyazoResponse ← uploadToGyazo env config tempFilename;
  let directUrl := getDirectImageUrl gyazoResponse in
  edit env processingMsg (codeBlock directUrl);;
  cleanupFile env tempFilename.

(** The body of the [catch] block. *)
Definition reportFailure (message : Message) (error : JsError) : M unit :=
  console_error "Error processing image:" error;;
  reply env message failureText;;
  mret tt.

(** One turn of the [for] loop. *)
Definition handleAttachment (message : Message) (attachment : Attachment)
  : M unit :=
  if negb (isImage attachment) then mret tt
  else try_catch (processImage message attachment) (reportFailure message).

(** [for (const attachment of ...) { ... }]: a throw leaves the loop. *)
Fixpoint forEach (body : Attachment -> M unit) (l : list Attachment)
  : M unit :=
  match l with
  | [] => mret tt
  | attachment :: rest => body attachment;; forEach body rest
  end.

Definition messageCreate (message : Message) : M unit :=
  if author_bot message then mret tt
  else if Js.truthy (channelId config)
          && negb (String.eqb (channel_id message) (channelId config))
  then mret tt
  else if (length (attachments message) =? 0)%nat then mret tt
  else forEach (handleAttachment message) (attachments message).

End Handler.

Definition world0 : World :=
  {| files := ∅; dirs := ∅; posts := []; history := [] |}.

(** ** Vocabulary of the properties *)

(** The three posts the handler makes. *)
Definition pendingPost (message : Message) : Post :=
  {| post_content := pendingText; post_reply_to := msg_id message |}.

Definition failurePost (message : Message) : Post :=
  {| post_content := failureText; post_reply_to := msg_id message |}.

Definition linkPost (message : Message) (gyazoResponse : GyazoResponse) : Post :=
  {| post_content := codeBlock (getDirectImageUrl gyazoResponse);
     post_reply_to := msg_id message |}.

(** A request that announces the processing of an attachment. *)
Definition is_announcement (r : Request) : bool :=
  match r with
  | ReqReply _ content => String.eqb content pendingText
  | _ => false
  end.

Definition announcements (h : list Request) : nat :=
  length (List.filter is_announcement h).

(** A computation keeps a relation between the world before and the world
    after when every run of it does. *)
Definition keeps (R : World -> World -> Prop) {A} (m : M A) : Prop :=
  forall w, R w (snd (m w)).

Definition same_posts (w w' : World) : Prop := posts w' = posts w.

(** The later world has the history of the earlier one, extended by
    requests none of which is an announcement. *)
Definition no_announcement (w w' : World) : Prop :=
  exists later, history w' = later ++ history w /\ announcements later = 0.

(** A computation whose first request is [r] and whose later requests are
    no announcements. *)
Definition starts_with (r : Request) {A} (m : M A) : Prop :=
  forall w, exists later,
    history (snd (m w)) = later ++ r :: history w /\ announcements later = 0.

(** ** Scenarios *)

(** Everything works; Gyazo answers as in scenario A of the specification. *)
Definition envA : Env :=
  {| chat_accepts := fun _ _ => true;
     fs_faults := fun _ => false;
     clock := fun _ => 1700000000000%Z;
     http_get := fun _ _ => Finished;
     gyazo_post := fun _ _ =>
       Some {| image_id := "xyz"; url := "https://gyazo.com/xyz.png" |} |}.

(** The hosting API refuses every upload (scenario B). *)
Definition envB : Env :=
  {| chat_accepts := fun _ _ => true;
     fs_faults := fun _ => false;
     clock := fun _ => 1700000000000%Z;
     http_get := fun _ _ => Finished;
     gyazo_post := fun _ _ => None |}.

(** The file system refuses every change. *)
Definition envFaulty : Env :=
  {| chat_accepts := fun _ _ => true;
     fs_faults := fun _ => true;
     clock := fun _ => 1700000000000%Z;
     http_get := fun _ _ => Finished;
     gyazo_post := fun _ _ => None |}.

(** The first upload of the event is refused, later ones are taken. *)
Definition envFlaky : Env :=
  {| chat_accepts := fun _ _ => true;
     fs_faults := fun _ => false;
     clock := fun n => (1700000000000 + Z.of_nat n)%Z;
     http_get := fun _ _ => Finished;
     gyazo_post := fun n _ =>
       if (n <? 8)%nat then None
       else Some {| image_id := "xyz"; url := "https://gyazo.com/xyz.png" |} |}.

(** The chat platform refuses every call. *)
Definition envMute : Env :=
  {| chat_accepts := fun _ _ => false;
     fs_faults := fun _ => false;
     clock := fun _ => 1700000000000%Z;
     http_get := fun _ _ => Finished;
     gyazo_post := fun _ _ => None |}.

(** The chat platform takes everything but the failure notice, and the
    hosting API refuses every upload. *)
Definition envNoNotice : Env :=
  {| chat_accepts := fun _ content => negb (String.eqb content failureText);
     fs_faults := fun _ => false;
     clock := fun _ => 1700000000000%Z;
     http_get := fun _ _ => Finished;
     gyazo_post := fun _ _ => None |}.

Definition config0 : Config :=
  {| token := "discord-token"; gyazoToken := "gyazo-token"; channelId := "" |}.

Definition cat : Attachment :=
  {| att_name := "cat.png"; att_url := "https://cdn.example/cat.png" |}.

Definition notes : Attachment :=
  {| att_name := "notes.txt"; att_url := "https://cdn.example/notes.txt" |}.

Definition dog : Attachment :=
  {| att_name := "Dog.JPG"; att_url := "https://cdn.example/Dog.JPG" |}.

Definition catMessage : Message :=
  {| msg_id := "m1"; author_bot := false; channel_id := "general";
     attachments := [cat] |}.

Definition albumMessage : Message :=
  {| msg_id := "m3"; author_bot := false; channel_id := "general";
     attachments := [cat; notes; dog] |}.

(** ** Configuration and further vocabulary *)

(** The [config] object: each field is [process.env.NAME || default].
    [getenv] is [process.env], [None] for a variable that is not set. *)
Definition loadConfig (getenv : string -> option string) : Config :=
  {| token := Js.or_else (getenv "DISCORD_TOKEN") "YOUR_DISCORD_BOT_TOKEN";
     gyazoToken := Js.or_else (getenv "GYAZO_TOKEN") "YOUR_GYAZO_ACCESS_TOKEN";
     channelId := Js.or_else (getenv "CHANNEL_ID") "" |}.

(** An environment in which no variable is set. *)
Definition noenv : string -> option string := fun _ => None.

(** A computation keeps a property of the world. *)
Definition preserves (P : World -> Prop) {A} (m : M A) : Prop :=
  forall w, P w -> P (snd (m w)).

(** Nothing on disk has changed. *)
Definition same_disk (w w' : World) : Prop :=
  files w' = files w /\ dirs w' = dirs w.

(** The paths at which the attachments [l] may be staged. *)
Definition staging_path (l : list Attachment) (p : string) : Prop :=
  exists now attachment, In attachment l /\ p = stagingName now attachment.

(** Files changed at the [allowed] paths only; directories were not removed, and
    none but the staging directory was made. *)
Definition touches_only (allowed : string -> Prop) (w w' : World) : Prop :=
  (forall p, ~ allowed p -> (p ∈ files w' <-> p ∈ files w))
  /\ dirs w ⊆ dirs w'
  /\ dirs w' ⊆ {[ "./temp" ]} ∪ dirs w.

(** A post the handler of [message] may make. *)
Definition handler_post (message : Message) (p : Post) : Prop :=
  post_reply_to p = msg_id message /\
  (post_content p = pendingText
   \/ post_content p = failureText
   \/ exists gyazoResponse,
        post_content p = codeBlock (getDirectImageUrl gyazoResponse)).

(** The paths under which the handler stages files. *)
Definition staged (p : string) : Prop := String.prefix "temp/temp_" p = true.

(** The posts are [before] followed by one post of the handler. *)
Definition one_post (message : Message) (before : list Post) (w : World)
  : Prop :=
  exists p, handler_post message p /\ posts w = before ++ [p].

(** * Properties *)

(** ** Strings *)

Section StringFacts.

Lemma append_nil (s : string) : "" +:+ s = s.
Proof. reflexivity. Qed.

Lemma append_cons (c : ascii) (a b : string) :
  String c a +:+ b = String c (a +:+ b).
Proof. reflexivity. Qed.

Lemma append_empty_r (s : string) : s +:+ "" = s.
Proof.
  induction s as [|c s IH]; [reflexivity | now rewrite append_cons, IH].
Qed.

Lemma append_assoc (a b c : string) : (a +:+ b) +:+ c = a +:+ (b +:+ c).
Proof.
  induction a as [|x a IH]; [reflexivity | now rewrite !append_cons, IH].
Qed.

Lemma length_append (a b : string) :
  String.length (a +:+ b) = String.length a + String.length b.
Proof.
  induction a as [|x a IH]; [reflexivity |].
  rewrite append_cons. simpl. now rewrite IH.
Qed.

Lemma contains_append_sep (sep : ascii) (pre ext : string) :
  contains sep (pre +:+ String sep ext) = true.
Proof.
  induction pre as [|c pre IH]; rewrite ?append_nil, ?append_cons; simpl.
  - now rewrite Ascii.eqb_refl.
  - rewrite IH. apply orb_true_r.
Qed.

Lemma split_not_nil (sep : ascii) (s : string) : Js.split sep s <> [].
Proof.
  destruct s as [|c s]; simpl; [discriminate |].
  destruct (Ascii.eqb c sep); [discriminate |].
  destruct (Js.split sep s); discriminate.
Qed.

Lemma split_without_sep (sep : ascii) (s : string) :
  contains sep s = false -> Js.split sep s = [s].
Proof.
  induction s as [|c s IH]; simpl; [reflexivity |].
  intros H. apply orb_false_iff in H as [Hc Hs].
  rewrite Hc, (IH Hs). reflexivity.
Qed.

Lemma split_with_sep (sep : ascii) (s : string) :
  contains sep s = true ->
  exists seg seg' segs, Js.split sep s = seg :: seg' :: segs.
Proof.
  induction s as [|c s IH]; simpl; [discriminate |].
  intros H. destruct (Ascii.eqb c sep) eqn:Hc.
  - destruct (Js.split sep s) as [|x xs] eqn:Hs.
    + now apply split_not_nil in Hs.
    + now exists "", x, xs.
  - simpl in H. destruct (IH H) as (x & y & ys & ->).
    now exists (String c x), y, ys.
Qed.

(** [split] then [pop] is the substring after the last separator. *)
Lemma pop_split (sep : ascii) (s : string) :
  Js.pop (Js.split sep s) = Some (after_last sep s).
Proof.
  unfold Js.pop. induction s as [|c s IH]; simpl; [reflexivity |].
  destruct (contains sep s) eqn:Hs.
  - destruct (split_with_sep sep s Hs) as (x & y & ys & Hsplit).
    rewrite Hsplit in IH |- *.
    destruct (Ascii.eqb c sep); exact IH.
  - rewrite (split_without_sep sep s Hs).
    destruct (Ascii.eqb c sep); reflexivity.
Qed.

Lemma after_last_without_sep (sep : ascii) (s : string) :
  contains sep s = false -> after_last sep s = s.
Proof.
  destruct s as [|c s]; simpl; [reflexivity |].
  intros H. apply orb_false_iff in H as [Hc Hs]. now rewrite Hs, Hc.
Qed.

Lemma after_last_append (sep : ascii) (pre ext : string) :
  contains sep ext = false ->
  after_last sep (pre +:+ String sep ext) = ext.
Proof.
  intros Hext.
  induction pre as [|c pre IH]; rewrite ?append_nil, ?append_cons; simpl.
  - now rewrite Hext, Ascii.eqb_refl.
  - now rewrite contains_append_sep.
Qed.

Lemma after_last_empty (sep : ascii) (s : string) :
  after_last sep s = "" <->
  s = "" \/ exists pre, s = pre +:+ String sep "".
Proof.
  split.
  - induction s as [|c s IH]; simpl; [now left | right].
    destruct (contains sep s) eqn:Hs.
    + destruct (IH H) as [-> | [pre ->]]; [discriminate |].
      now exists (String c pre).
    + destruct (Ascii.eqb_spec c sep) as [-> | _]; [| discriminate].
      subst s. now exists "".
  - intros [-> | [pre ->]]; [reflexivity |].
    now apply after_last_append.
Qed.

Lemma substring_all (s : string) : substring 0 (String.length s) s = s.
Proof. induction s as [|c s IH]; simpl; [reflexivity | now f_equal]. Qed.

Lemma substring_skip (pre suf : string) :
  substring (String.length pre) (String.length suf) (pre +:+ suf) = suf.
Proof.
  induction pre as [|c pre IH]; [apply substring_all |].
  rewrite append_cons. exact IH.
Qed.

Lemma substring_cut (n : nat) (s : string) :
  n <= String.length s ->
  s = substring 0 n s +:+ substring n (String.length s - n) s.
Proof.
  revert n. induction s as [|c s IH]; intros [|n] H; simpl in *;
    try reflexivity; try lia.
  - now rewrite append_nil, substring_all.
  - rewrite append_cons. f_equal. apply IH. lia.
Qed.

(** [endsWith] says that the string is something followed by the suffix. *)
Lemma endsWith_spec (s suf : string) :
  Js.endsWith s suf = true <-> exists pre, s = pre +:+ suf.
Proof.
  unfold Js.endsWith. split.
  - intros H. apply andb_true_iff in H as [Hlen Heq].
    apply Nat.leb_le in Hlen. apply String.eqb_eq in Heq.
    exists (substring 0 (String.length s - String.length suf) s).
    pose proof (substring_cut (String.length s - String.length suf) s) as Hcut.
    replace (String.length s - (String.length s - String.length suf))
      with (String.length suf) in Hcut by lia.
    rewrite Heq in Hcut. apply Hcut. lia.
  - intros [pre ->]. rewrite length_append.
    apply andb_true_iff. split; [apply Nat.leb_le; lia |].
    replace (String.length pre + String.length suf - String.length suf)
      with (String.length pre) by lia.
    rewrite substring_skip. apply String.eqb_refl.
Qed.

Lemma toLowerCase_append (a b : string) :
  Js.toLowerCase (a +:+ b) = Js.toLowerCase a +:+ Js.toLowerCase b.
Proof.
  induction a as [|c a IH]; [reflexivity |].
  rewrite append_cons. simpl. now rewrite IH, append_cons.
Qed.

Lemma toLowerCase_length (s : string) :
  String.length (Js.toLowerCase s) = String.length s.
Proof. induction s as [|c s IH]; simpl; [reflexivity | now f_equal]. Qed.

End StringFacts.

(** ** The URL resolver *)

Section Resolver.

Lemma truthy_false (s : string) : Js.truthy s = false <-> s = "".
Proof. destruct s; simpl; split; congruence. Qed.

(** The extension in terms of the reference URL alone. *)
Lemma extension_after_last (u : string) :
  extension u =
  if Js.truthy (after_last "." u) then after_last "." u else "jpg".
Proof. unfold extension. now rewrite pop_split. Qed.

Lemma extension_not_empty (u : string) : extension u <> "".
Proof.
  rewrite extension_after_last.
  destruct (Js.truthy (after_last "." u)) eqn:H; [| discriminate].
  intros E. apply truthy_false in E. congruence.
Qed.

Lemma extension_of_suffix (pre ext : string) :
  ext <> "" -> contains "." ext = false ->
  extension (pre +:+ "." +:+ ext) = ext.
Proof.
  intros Hne Hdot. rewrite extension_after_last.
  change ("." +:+ ext) with (String "." ext).
  rewrite after_last_append by exact Hdot.
  destruct (Js.truthy ext) eqn:H; [reflexivity |].
  now apply truthy_false in H.
Qed.

(** A reference URL without any [.] is its own "extension". *)
Lemma extension_without_dot (u : string) :
  u <> "" -> contains "." u = false -> extension u = u.
Proof.
  intros Hne Hdot. rewrite extension_after_last.
  rewrite after_last_without_sep by exact Hdot.
  destruct (Js.truthy u) eqn:H; [reflexivity |].
  now apply truthy_false in H.
Qed.

Lemma default_taken_iff (u : string) :
  Js.falsy (Js.pop (Js.split "." u)) = true <->
  u = "" \/ Js.endsWith u "." = true.
Proof.
  rewrite pop_split. simpl. rewrite negb_true_iff, truthy_false.
  rewrite after_last_empty. now rewrite endsWith_spec.
Qed.

End Resolver.

(** C1 (the specification's example, run on the code).  The reference URL
    ["https://x/y"] contains no ["."], yet the resolver does not fall back
    to ["jpg"]: [split] returns the whole URL as its only segment, [pop]
    hands it back, it is truthy, and it is appended as the extension. *)
Theorem getDirectImageUrl_without_dot :
  contains "." "https://x/y" = false /\
  getDirectImageUrl {| image_id := "abc123"; url := "https://x/y" |}
  = "https://i.gyazo.com/abc123.https://x/y" /\
  getDirectImageUrl {| image_id := "abc123"; url := "https://x/y" |}
  <> "https://i.gyazo.com/abc123.jpg".
Proof. repeat split. discriminate. Qed.

(** C5, as the claim words it, at a reference URL that ends with ["."]:
    the substring after the last ["."] of ["https://x/y."] is empty, and
    the resolver does not append it but ["jpg"]. *)
Lemma getDirectImageUrl_trailing_dot_not_suffix :
  "https://x/y." = "https://x/y" +:+ "." +:+ "" /\
  after_last "." "https://x/y." = "" /\
  getDirectImageUrl {| image_id := "abc123"; url := "https://x/y." |}
  = "https://i.gyazo.com/abc123.jpg" /\
  getDirectImageUrl {| image_id := "abc123"; url := "https://x/y." |}
  <> "https://i.gyazo.com/" +:+ "abc123" +:+ "."
     +:+ after_last "." "https://x/y.".
Proof. repeat split. discriminate. Qed.

(** C5, amended.  The resolver is a function from upload results with
    string fields to strings, so it is total and pure.  When the reference
    URL reads [pre.ext] with [ext] free of ["."], that is when [ext] is the
    substring after its last ["."], the value is the host prefix, the
    identifier, a ["."] and [ext], or ["jpg"] in the place of [ext] when
    [ext] is empty. *)
Theorem getDirectImageUrl_suffix_or_jpg (r : GyazoResponse) (pre ext : string) :
  url r = pre +:+ "." +:+ ext -> contains "." ext = false ->
  getDirectImageUrl r
  = "https://i.gyazo.com/" +:+ image_id r +:+ "."
    +:+ (if Js.truthy ext then ext else "jpg").
Proof.
  intros Hurl Hdot. unfold getDirectImageUrl. rewrite Hurl.
  rewrite extension_after_last.
  change ("." +:+ ext) with (String "." ext).
  now rewrite after_last_append by exact Hdot.
Qed.

Lemma getDirectImageUrl_suffix_or_jpg_png :
  getDirectImageUrl {| image_id := "abc123"; url := "https://x/y.png" |}
  = "https://i.gyazo.com/abc123.png".
Proof.
  apply (getDirectImageUrl_suffix_or_jpg
           {| image_id := "abc123"; url := "https://x/y.png" |}
           "https://x/y" "png").
  - reflexivity.
  - reflexivity.
Defined.

(** C10.  The ["jpg"] default is taken exactly when the reference URL is
    empty or ends with ["."], these being the only URLs whose last segment
    is the empty string.  For each of them the resolver returns the host
    prefix, the identifier and [".jpg"]; for every other URL it appends
    the last segment that [split] and [pop] give, which is not empty and
    is the text after the last ["."]. *)
Theorem getDirectImageUrl_default (r : GyazoResponse) :
  (Js.falsy (Js.pop (Js.split "." (url r))) = true <->
   url r = "" \/ Js.endsWith (url r) "." = true)
  /\
  (url r = "" \/ Js.endsWith (url r) "." = true ->
   getDirectImageUrl r = "https://i.gyazo.com/" +:+ image_id r +:+ ".jpg")
  /\
  (~ (url r = "" \/ Js.endsWith (url r) "." = true) ->
   exists segment,
     Js.pop (Js.split "." (url r)) = Some segment /\
     segment <> "" /\
     segment = after_last "." (url r) /\
     getDirectImageUrl r
     = "https://i.gyazo.com/" +:+ image_id r +:+ "." +:+ segment).
Proof.
  split; [apply default_taken_iff | split].
  - intros H. apply default_taken_iff in H.
    unfold getDirectImageUrl, extension, Js.or_else.
    destruct (Js.pop (Js.split "." (url r))) as [s|]; simpl in *; [| reflexivity].
    apply negb_true_iff in H. now rewrite H.
  - intros Hnot. exists (after_last "." (url r)).
    assert (Hsome : Js.falsy (Js.pop (Js.split "." (url r))) = false).
    { destruct (Js.falsy (Js.pop (Js.split "." (url r)))) eqn:Hf;
        [| reflexivity].
      apply default_taken_iff in Hf. contradiction. }
    rewrite pop_split in Hsome |- *. simpl in Hsome.
    apply negb_false_iff in Hsome.
    repeat split.
    + intros Hempty. rewrite Hempty in Hsome. discriminate.
    + unfold getDirectImageUrl. rewrite extension_after_last.
      now rewrite Hsome.
Qed.

Lemma getDirectImageUrl_default_trailing_dot :
  getDirectImageUrl {| image_id := "abc123"; url := "https://x/y." |}
  = "https://i.gyazo.com/abc123.jpg"
  /\
  exists segment,
    Js.pop (Js.split "." "https://gyazo.com/xyz.png") = Some segment /\
    segment <> "" /\
    segment = after_last "." "https://gyazo.com/xyz.png" /\
    getDirectImageUrl {| image_id := "xyz"; url := "https://gyazo.com/xyz.png" |}
    = "https://i.gyazo.com/" +:+ "xyz" +:+ "." +:+ segment.
Proof.
  split.
  - apply (proj1 (proj2 (getDirectImageUrl_default
                           {| image_id := "abc123"; url := "https://x/y." |}))).
    right. reflexivity.
  - apply (proj2 (proj2 (getDirectImageUrl_default
                           {| image_id := "xyz";
                              url := "https://gyazo.com/xyz.png" |}))).
    intros [H | H]; discriminate H.
Defined.

(** ** Running computations *)

Section Running.
Context {A B : Type}.

Lemma bind_Return (m : M A) (k : A -> M B) w a w' :
  m w = (Return a, w') -> (m ≫= k) w = k a w'.
Proof. intros H. unfold mbind, M_bind. now rewrite H. Qed.

Lemma bind_Throw (m : M A) (k : A -> M B) w e w' :
  m w = (Throw e, w') -> (m ≫= k) w = (Throw e, w').
Proof. intros H. unfold mbind, M_bind. now rewrite H. Qed.

Lemma try_Return (m : M A) (h : JsError -> M A) w a w' :
  m w = (Return a, w') -> try_catch m h w = (Return a, w').
Proof. intros H. unfold try_catch. now rewrite H. Qed.

Lemma try_Throw (m : M A) (h : JsError -> M A) w e w' :
  m w = (Throw e, w') -> try_catch m h w = h e w'.
Proof. intros H. unfold try_catch. now rewrite H. Qed.

End Running.

(** A relation between the world before and after, kept by every step, is
    kept by sequences and by [try]/[catch]. *)
Section Kept.
Context (R : World -> World -> Prop).
Hypothesis R_refl : forall w, R w w.
Hypothesis R_trans : forall w1 w2 w3, R w1 w2 -> R w2 w3 -> R w1 w3.

Lemma keeps_ret {A} (a : A) : keeps R (mret a).
Proof. intros w. apply R_refl. Qed.

Lemma keeps_throw {A} (e : JsError) : keeps R (@throw A e).
Proof. intros w. apply R_refl. Qed.

Lemma keeps_bind {A B} (m : M A) (k : A -> M B) :
  keeps R m -> (forall a, keeps R (k a)) -> keeps R (m ≫= k).
Proof.
  intros Hm Hk w. unfold mbind, M_bind.
  specialize (Hm w). destruct (m w) as [[a|e] w1]; simpl in *.
  - eapply R_trans; [exact Hm | apply Hk].
  - exact Hm.
Qed.

Lemma keeps_try_catch {A} (m : M A) (h : JsError -> M A) :
  keeps R m -> (forall e, keeps R (h e)) -> keeps R (try_catch m h).
Proof.
  intros Hm Hh w. unfold try_catch.
  specialize (Hm w). destruct (m w) as [[a|e] w1]; simpl in *.
  - exact Hm.
  - eapply R_trans; [exact Hm | apply Hh].
Qed.

End Kept.


(** *** Steps that leave the posts alone *)

Lemma same_posts_refl w : same_posts w w.
Proof. reflexivity. Qed.

Lemma same_posts_trans w1 w2 w3 :
  same_posts w1 w2 -> same_posts w2 w3 -> same_posts w1 w3.
Proof. unfold same_posts. congruence. Qed.

(** *** Steps that announce nothing *)

Lemma announcements_app (h1 h2 : list Request) :
  announcements (h1 ++ h2) = announcements h1 + announcements h2.
Proof. unfold announcements. now rewrite List.filter_app, length_app. Qed.

Lemma no_announcement_refl w : no_announcement w w.
Proof. now exists []. Qed.

Lemma no_announcement_trans w1 w2 w3 :
  no_announcement w1 w2 -> no_announcement w2 w3 -> no_announcement w1 w3.
Proof.
  intros (l1 & H1 & Z1) (l2 & H2 & Z2). exists (l2 ++ l1). split.
  - rewrite H2, H1. apply app_assoc.
  - rewrite announcements_app. lia.
Qed.

Lemma no_announcement_one (r : Request) w w' :
  history w' = r :: history w -> is_announcement r = false ->
  no_announcement w w'.
Proof.
  intros H Hr. exists [r]. split; [exact H |].
  unfold announcements. simpl. now rewrite Hr.
Qed.

Ltac step_cases :=
  repeat match goal with
         | |- context [if ?b then _ else _] => destruct b
         | |- context [match ?x with _ => _ end] => destruct x
         end.

Section Steps.
Context (env : Env).

Ltac posts_step := intros w; unfold same_posts; cbv beta delta
  [console_error existsSync mkdirSync unlinkSync date_now downloadImage
   axios_post]; step_cases; reflexivity.

Lemma console_error_posts text e : keeps same_posts (console_error text e).
Proof. posts_step. Qed.

Lemma existsSync_posts path : keeps same_posts (existsSync path).
Proof. posts_step. Qed.

Lemma mkdirSync_posts path : keeps same_posts (mkdirSync env path).
Proof. posts_step. Qed.

Lemma unlinkSync_posts path : keeps same_posts (unlinkSync env path).
Proof. posts_step. Qed.

Lemma date_now_posts : keeps same_posts (date_now env).
Proof. posts_step. Qed.

Lemma downloadImage_posts source filename :
  keeps same_posts (downloadImage env source filename).
Proof. posts_step. Qed.

Lemma axios_post_posts credential imagePath :
  keeps same_posts (axios_post env credential imagePath).
Proof. posts_step. Qed.

Ltac quiet_step := intros w; cbv beta delta
  [console_error existsSync mkdirSync unlinkSync date_now downloadImage
   axios_post reply edit];
  step_cases; simpl;
  first [ apply no_announcement_refl
        | eapply no_announcement_one; [reflexivity | reflexivity] ].

Lemma console_error_quiet text e :
  keeps no_announcement (console_error text e).
Proof. quiet_step. Qed.

Lemma existsSync_quiet path : keeps no_announcement (existsSync path).
Proof. quiet_step. Qed.

Lemma mkdirSync_quiet path : keeps no_announcement (mkdirSync env path).
Proof. quiet_step. Qed.

Lemma unlinkSync_quiet path : keeps no_announcement (unlinkSync env path).
Proof. quiet_step. Qed.

Lemma date_now_quiet : keeps no_announcement (date_now env).
Proof. quiet_step. Qed.

Lemma downloadImage_quiet source filename :
  keeps no_announcement (downloadImage env source filename).
Proof. quiet_step. Qed.

Lemma axios_post_quiet credential imagePath :
  keeps no_announcement (axios_post env credential imagePath).
Proof. quiet_step. Qed.

Lemma edit_quiet handle content :
  keeps no_announcement (edit env handle content).
Proof. quiet_step. Qed.

(** The failure notice is not the pending text. *)
Lemma reply_failure_quiet message :
  keeps no_announcement (reply env message failureText).
Proof. quiet_step. Qed.

End Steps.

(** *** Compound computations *)

Create HintDb posts_db.
Create HintDb quiet_db.

Lemma posts_ret {A} (a : A) : keeps same_posts (mret a).
Proof. apply keeps_ret, same_posts_refl. Qed.

Lemma posts_throw {A} e : keeps same_posts (@throw A e).
Proof. apply keeps_throw, same_posts_refl. Qed.

Lemma posts_bind {A B} (m : M A) (k : A -> M B) :
  keeps same_posts m -> (forall a, keeps same_posts (k a)) ->
  keeps same_posts (m ≫= k).
Proof. apply keeps_bind, same_posts_trans. Qed.

Lemma posts_try_catch {A} (m : M A) (h : JsError -> M A) :
  keeps same_posts m -> (forall e, keeps same_posts (h e)) ->
  keeps same_posts (try_catch m h).
Proof. apply keeps_try_catch, same_posts_trans. Qed.

Lemma quiet_ret {A} (a : A) : keeps no_announcement (mret a).
Proof. apply keeps_ret, no_announcement_refl. Qed.

Lemma quiet_throw {A} e : keeps no_announcement (@throw A e).
Proof. apply keeps_throw, no_announcement_refl. Qed.

Lemma quiet_bind {A B} (m : M A) (k : A -> M B) :
  keeps no_announcement m -> (forall a, keeps no_announcement (k a)) ->
  keeps no_announcement (m ≫= k).
Proof. apply keeps_bind, no_announcement_trans. Qed.

Lemma quiet_try_catch {A} (m : M A) (h : JsError -> M A) :
  keeps no_announcement m -> (forall e, keeps no_announcement (h e)) ->
  keeps no_announcement (try_catch m h).
Proof. apply keeps_try_catch, no_announcement_trans. Qed.

#[local] Hint Resolve posts_ret posts_throw posts_bind posts_try_catch
  console_error_posts existsSync_posts mkdirSync_posts unlinkSync_posts
  date_now_posts downloadImage_posts axios_post_posts : posts_db.

#[local] Hint Resolve quiet_ret quiet_throw quiet_bind quiet_try_catch
  console_error_quiet existsSync_quiet mkdirSync_quiet unlinkSync_quiet
  date_now_quiet downloadImage_quiet axios_post_quiet edit_quiet
  reply_failure_quiet : quiet_db.

Ltac kept db :=
  repeat first
    [ progress (auto with db)
    | match goal with
      | |- keeps _ (if ?b then _ else _) => destruct b
      | |- forall _, _ => intro
      end
    | apply posts_bind | apply quiet_bind
    | apply posts_try_catch | apply quiet_try_catch ].

Section Compound.
Context (env : Env) (config : Config).

Lemma ensureTempDir_posts : keeps same_posts (ensureTempDir env).
Proof. unfold ensureTempDir. kept posts_db. Qed.

Lemma uploadToGyazo_posts imagePath :
  keeps same_posts (uploadToGyazo env config imagePath).
Proof. unfold uploadToGyazo. kept posts_db. Qed.

Lemma cleanupFile_posts filepath : keeps same_posts (cleanupFile env filepath).
Proof. unfold cleanupFile. kept posts_db. Qed.

Lemma ensureTempDir_quiet : keeps no_announcement (ensureTempDir env).
Proof. unfold ensureTempDir. kept quiet_db. Qed.

Lemma uploadToGyazo_quiet imagePath :
  keeps no_announcement (uploadToGyazo env config imagePath).
Proof. unfold uploadToGyazo. kept quiet_db. Qed.

Lemma cleanupFile_quiet filepath :
  keeps no_announcement (cleanupFile env filepath).
Proof. unfold cleanupFile. kept quiet_db. Qed.

Lemma reportFailure_quiet message e :
  keeps no_announcement (reportFailure env message e).
Proof. unfold reportFailure. kept quiet_db. Qed.

(** [cleanupFile] returns, whatever the file system does. *)
Lemma cleanupFile_returns filepath w :
  fst (cleanupFile env filepath w) = Return tt.
Proof.
  unfold cleanupFile, try_catch, existsSync, unlinkSync, console_error,
    mbind, M_bind, mret, M_ret.
  step_cases; reflexivity.
Qed.

End Compound.

(** ** Cleanup *)

(** C9.  [cleanupFile] always returns and never throws.  On a path that no
    longer exists it changes nothing and asks nothing of the outside, so
    that calling it twice in a row does the same; when the path exists and
    the deletion fails, the failure is logged, the path stays, and the
    caller sees a normal return. *)
Theorem cleanupFile_never_throws (env : Env) (filepath : string) (w : World) :
  (exists w', cleanupFile env filepath w = (Return tt, w'))
  /\
  (filepath ∉ files w ∪ dirs w ->
   cleanupFile env filepath w = (Return tt, w) /\
   (cleanupFile env filepath;; cleanupFile env filepath) w = (Return tt, w))
  /\
  (filepath ∈ files w ∪ dirs w -> fs_faults env (tick w) = true ->
   cleanupFile env filepath w
   = (Return tt,
      request (ReqLog "Error cleaning up file:" FsError)
              (request (ReqUnlink filepath) w))).
Proof.
  split; [| split].
  - pose proof (cleanupFile_returns env filepath w) as H.
    destruct (cleanupFile env filepath w) as [o w']. simpl in H. subst o.
    now exists w'.
  - intros Hgone.
    assert (Hone : cleanupFile env filepath w = (Return tt, w)).
    { unfold cleanupFile, try_catch, existsSync, mbind, M_bind.
      now rewrite bool_decide_eq_false_2. }
    split; [exact Hone |].
    now rewrite (bind_Return _ _ _ _ _ Hone).
  - intros Hthere Hfault.
    unfold cleanupFile, try_catch, existsSync, unlinkSync, mbind, M_bind.
    rewrite bool_decide_eq_true_2 by exact Hthere.
    now rewrite Hfault.
Qed.

Lemma cleanupFile_twice_on_deleted_path :
  (cleanupFile envA "temp/temp_1700000000000_cat.png";;
   cleanupFile envA "temp/temp_1700000000000_cat.png") world0
  = (Return tt, world0).
Proof.
  refine (proj2 (proj1 (proj2 (cleanupFile_never_throws
                                 envA "temp/temp_1700000000000_cat.png" world0))
                       _)).
  simpl. intros H.
  apply elem_of_union in H as [H | H]; exact (not_elem_of_empty _ H).
Defined.

(** A deletion that fails: the staging file exists, the file system
    refuses the unlink; the call returns, the file stays, the error is on
    the console. *)
Example cleanupFile_logs_failed_deletion :
  let w := set_files {[ "temp/temp_1700000000000_cat.png" ]} world0 in
  let r := cleanupFile envFaulty "temp/temp_1700000000000_cat.png" w in
  fst r = Return tt /\
  elements (files (snd r)) = ["temp/temp_1700000000000_cat.png"] /\
  history (snd r)
  = [ ReqLog "Error cleaning up file:" FsError;
      ReqUnlink "temp/temp_1700000000000_cat.png" ].
Proof. vm_compute. repeat split. Qed.

(** ** The filter *)

(** C3.  An event whose author is automated, or that comes from another
    conversation than the configured one, or that carries no attachment,
    leaves the world as it was: no request is made and no reply posted. *)
Theorem messageCreate_ignores (env : Env) (config : Config)
        (message : Message) (w : World) :
  author_bot message = true
  \/ (channelId config <> "" /\ channel_id message <> channelId config)
  \/ attachments message = [] ->
  messageCreate env config message w = (Return tt, w).
Proof.
  intros H. unfold messageCreate.
  destruct (author_bot message) eqn:Hbot; [reflexivity |].
  destruct H as [Hb | [[Hset Hother] | Hnone]]; [discriminate | |].
  - destruct (channelId config) as [|c rest] eqn:Hc; [contradiction |].
    simpl Js.truthy. apply String.eqb_neq in Hother. rewrite Hother.
    reflexivity.
  - rewrite Hnone. simpl.
    destruct (Js.truthy (channelId config)
              && negb (String.eqb (channel_id message) (channelId config)));
      reflexivity.
Qed.

Lemma messageCreate_ignores_bot :
  messageCreate envA config0
    {| msg_id := "m2"; author_bot := true; channel_id := "general";
       attachments := [cat] |} world0
  = (Return tt, world0).
Proof. apply messageCreate_ignores. left. reflexivity. Defined.

(** ** Classification of attachments *)

Section Classify.

Lemma append_suffix_inj (a c b d : string) :
  a +:+ b = c +:+ d -> String.length b = String.length d -> b = d.
Proof.
  revert c. induction a as [|x a IH]; intros [|y c] H Hlen;
    rewrite ?append_nil, ?append_cons in H.
  - exact H.
  - subst b. rewrite <- append_cons, length_append in Hlen. simpl in Hlen. lia.
  - subst d. rewrite <- append_cons, length_append in Hlen. simpl in Hlen. lia.
  - injection H as _ H. now apply (IH c).
Qed.

Lemma cut_suffix (s : string) (n : nat) :
  n <= String.length s ->
  exists pre suf, s = pre +:+ suf /\ String.length suf = n.
Proof.
  induction s as [|c s IH]; intros Hn; simpl in Hn.
  - exists "", "". split; [reflexivity | simpl; lia].
  - destruct (Nat.eq_dec n (S (String.length s))) as [-> | Hne].
    + now exists "", (String c s).
    + destruct IH as (pre & suf & -> & Hlen); [lia |].
      now exists (String c pre), suf.
Qed.

(** Lower-casing the name and testing the suffix is the same as finding
    a suffix of the name that is the extension up to case. *)
Lemma endsWith_lower (name ext : string) :
  Js.endsWith (Js.toLowerCase name) ext = true <->
  exists pre suf, name = pre +:+ suf /\ Js.toLowerCase suf = ext.
Proof.
  rewrite endsWith_spec. split.
  - intros [pre' Hlow].
    assert (Hlen : String.length ext <= String.length name).
    { rewrite <- (toLowerCase_length name), Hlow, length_append. lia. }
    destruct (cut_suffix name _ Hlen) as (pre & suf & -> & Hsuf).
    exists pre, suf. split; [reflexivity |].
    rewrite toLowerCase_append in Hlow.
    apply (append_suffix_inj _ _ _ _ Hlow).
    now rewrite toLowerCase_length.
  - intros (pre & suf & -> & <-). exists (Js.toLowerCase pre).
    apply toLowerCase_append.
Qed.

Lemma isImage_spec (attachment : Attachment) :
  isImage attachment = true <->
  exists pre suf,
    att_name attachment = pre +:+ suf /\
    In (Js.toLowerCase suf) imageExtensions.
Proof.
  unfold isImage. rewrite existsb_exists. split.
  - intros (ext & Hin & Hends). apply endsWith_lower in Hends.
    destruct Hends as (pre & suf & Hname & <-). now exists pre, suf.
  - intros (pre & suf & Hname & Hin). exists (Js.toLowerCase suf).
    split; [exact Hin |]. apply endsWith_lower. now exists pre, suf.
Qed.

End Classify.

(** ** What a run asks first *)

Lemma starts_with_then (r : Request) (w w1 w2 : World) :
  history w1 = r :: history w -> no_announcement w1 w2 ->
  exists later, history w2 = later ++ r :: history w /\ announcements later = 0.
Proof. intros H1 (later & H2 & Hz). exists later. now rewrite H2, H1. Qed.

Lemma starts_with_bind (r : Request) {A B} (m : M A) (k : A -> M B) :
  (forall w, history (snd (m w)) = r :: history w) ->
  (forall a, keeps no_announcement (k a)) ->
  starts_with r (m ≫= k).
Proof.
  intros Hm Hk w. unfold mbind, M_bind.
  specialize (Hm w). destruct (m w) as [[a|e] w1]; simpl in Hm.
  - apply (starts_with_then r w w1 _ Hm), Hk.
  - apply (starts_with_then r w w1 _ Hm), no_announcement_refl.
Qed.

Lemma starts_with_try_catch (r : Request) {A} (m : M A) (h : JsError -> M A) :
  starts_with r m -> (forall e, keeps no_announcement (h e)) ->
  starts_with r (try_catch m h).
Proof.
  intros Hm Hh w. unfold try_catch.
  destruct (Hm w) as (later & Hhist & Hz).
  destruct (m w) as [[a|e] w1]; simpl in Hhist.
  - now exists later.
  - destruct (Hh e w1) as (more & Hmore & Hz').
    exists (more ++ later). split.
    + rewrite Hmore, Hhist. apply app_assoc.
    + rewrite announcements_app. lia.
Qed.

Section Runs.
Context (env : Env) (config : Config).

Lemma reply_history message content w :
  history (snd (reply env message content w))
  = ReqReply (msg_id message) content :: history w.
Proof. unfold reply. destruct (chat_accepts env (tick w) content); reflexivity. Qed.

Lemma handleAttachment_image message attachment :
  isImage attachment = true ->
  handleAttachment env config message attachment
  = try_catch (processImage env config message attachment)
              (reportFailure env message).
Proof. unfold handleAttachment. now intros ->. Qed.

Lemma handleAttachment_other message attachment :
  isImage attachment = false ->
  handleAttachment env config message attachment = mret tt.
Proof. unfold handleAttachment. now intros ->. Qed.

(** The run of an image announces itself, once and first. *)
Lemma image_run_starts message attachment :
  starts_with (ReqReply (msg_id message) pendingText)
    (try_catch (processImage env config message attachment)
               (reportFailure env message)).
Proof.
  apply starts_with_try_catch; [| apply reportFailure_quiet].
  unfold processImage. apply starts_with_bind; [apply reply_history |].
  intros processingMsg.
  pose proof ensureTempDir_quiet. pose proof uploadToGyazo_quiet.
  pose proof cleanupFile_quiet.
  kept quiet_db.
Qed.

End Runs.

(** C4.  An attachment is processed exactly when its name ends, up to the
    case of its letters, with one of the six image suffixes: the code's test
    [isImage] holds exactly for those names; when it holds the run asks the
    chat platform to post the pending reply; when it does not the attachment
    is skipped and the world is left as it was, without any reply. *)
Theorem image_suffix_decides_processing (env : Env) (config : Config)
        (message : Message) (attachment : Attachment) (w : World) :
  (isImage attachment = true <->
   exists pre suf,
     att_name attachment = pre +:+ suf /\
     In (Js.toLowerCase suf) [".jpg"; ".jpeg"; ".png"; ".gif"; ".webp"; ".bmp"])
  /\
  (isImage attachment = true ->
   exists later,
     history (snd (handleAttachment env config message attachment w))
     = later ++ ReqReply (msg_id message) pendingText :: history w)
  /\
  (isImage attachment = false ->
   handleAttachment env config message attachment w = (Return tt, w)).
Proof.
  split; [apply isImage_spec | split]; intros Himg;
    unfold handleAttachment; rewrite Himg; simpl negb; cbv iota.
  - destruct (image_run_starts env config message attachment w)
      as (later & Hhist & _).
    now exists later.
  - reflexivity.
Qed.

Lemma image_suffix_decides_processing_txt :
  isImage notes = false /\
  handleAttachment envA config0 catMessage notes world0 = (Return tt, world0).
Proof.
  split; [reflexivity |].
  apply (proj2 (proj2 (image_suffix_decides_processing
                         envA config0 catMessage notes world0))).
  reflexivity.
Defined.

(** ** The outcome of a run *)

Section Outcome.
Context (env : Env) (config : Config).

Lemma reply_accepted message content w handle w1 :
  reply env message content w = (Return handle, w1) ->
  handle = length (posts w) /\
  posts w1 = posts w ++ [ {| post_content := content;
                             post_reply_to := msg_id message |} ].
Proof.
  unfold reply. destruct (chat_accepts env (tick w) content);
    intros H; inversion H; subst; now split.
Qed.

Lemma edit_accepted handle content w w1 :
  edit env handle content w = (Return tt, w1) ->
  posts w1 = alter (fun p => {| post_content := content;
                                post_reply_to := post_reply_to p |})
                   handle (posts w).
Proof.
  unfold edit. destruct (chat_accepts env (tick w) content);
    intros H; inversion H; subst; reflexivity.
Qed.

(** The posts after a step that keeps them, read off its result. *)
Lemma posts_after {A} (m : M A) w o w' :
  keeps same_posts m -> m w = (o, w') -> posts w' = posts w.
Proof. intros Hm H. specialize (Hm w). now rewrite H in Hm. Qed.

End Outcome.

(** C6.  A run in which the pending reply is posted, the staging directory
    is there, the transfer and the upload succeed and the chat platform
    takes the edit, ends normally; the only post it adds is the pending
    reply, and that post ends up holding the resolved direct URL as a
    code block, still answering the same message. *)
Theorem success_edits_pending_reply (env : Env) (config : Config)
        (message : Message) (attachment : Attachment)
        (w w1 w2 w3 w4 w5 w6 : World) (processingMsg : nat) (now : Z)
        (gyazoResponse : GyazoResponse) :
  isImage attachment = true ->
  reply env message pendingText w = (Return processingMsg, w1) ->
  ensureTempDir env w1 = (Return tt, w2) ->
  date_now env w2 = (Return now, w3) ->
  downloadImage env (att_url attachment) (stagingName now attachment) w3
  = (Return tt, w4) ->
  uploadToGyazo env config (stagingName now attachment) w4
  = (Return gyazoResponse, w5) ->
  edit env processingMsg (codeBlock (getDirectImageUrl gyazoResponse)) w5
  = (Return tt, w6) ->
  exists w',
    handleAttachment env config message attachment w = (Return tt, w') /\
    posts w1 = posts w ++ [pendingPost message] /\
    posts w' = posts w ++ [linkPost message gyazoResponse].
Proof.
  intros Himg Hreply Hdir Hnow Hget Hup Hedit.
  destruct (cleanupFile env (stagingName now attachment) w6) as [o w7] eqn:Hclean.
  pose proof (cleanupFile_returns env (stagingName now attachment) w6) as Hret.
  rewrite Hclean in Hret. simpl in Hret. subst o.
  exists w7.
  destruct (reply_accepted env _ _ _ _ _ Hreply) as [Hhandle Hposts1].
  split; [| split].
  - unfold handleAttachment. rewrite Himg. simpl negb. cbv iota.
    apply try_Return. unfold processImage.
    rewrite (bind_Return _ _ _ _ _ Hreply), (bind_Return _ _ _ _ _ Hdir),
      (bind_Return _ _ _ _ _ Hnow), (bind_Return _ _ _ _ _ Hget),
      (bind_Return _ _ _ _ _ Hup), (bind_Return _ _ _ _ _ Hedit).
    exact Hclean.
  - exact Hposts1.
  - rewrite (posts_after _ _ _ _ (cleanupFile_posts env _) Hclean).
    rewrite (edit_accepted env _ _ _ _ Hedit).
    rewrite (posts_after _ _ _ _ (uploadToGyazo_posts env config _) Hup).
    rewrite (posts_after _ _ _ _ (downloadImage_posts env _ _) Hget).
    rewrite (posts_after _ _ _ _ (date_now_posts env) Hnow).
    rewrite (posts_after _ _ _ _ (ensureTempDir_posts env) Hdir).
    rewrite Hposts1, Hhandle.
    replace (length (posts w)) with (length (posts w) + 0) by lia.
    now rewrite alter_app_r.
Qed.

Lemma success_edits_pending_reply_cat :
  exists w',
    handleAttachment envA config0 catMessage cat world0 = (Return tt, w') /\
    posts w'
    = [ {| post_content := "```https://i.gyazo.com/xyz.png```";
           post_reply_to := "m1" |} ].
Proof.
  edestruct (success_edits_pending_reply envA config0 catMessage cat world0)
    as (w' & Hrun & _ & Hposts); [reflexivity .. |].
  exists w'. split; [exact Hrun | exact Hposts].
Defined.

(** C7.  A run whose transfer or upload throws, after the pending reply was
    posted, ends normally once the chat platform takes the failure notice.
    The notice is a new post, next to the pending reply; the pending reply
    still says what it said. *)
Theorem failure_posts_new_notice (env : Env) (config : Config)
        (message : Message) (attachment : Attachment)
        (w w1 w2 w3 w4 w5 : World) (processingMsg notice : nat) (now : Z)
        (error : JsError) :
  isImage attachment = true ->
  reply env message pendingText w = (Return processingMsg, w1) ->
  ensureTempDir env w1 = (Return tt, w2) ->
  date_now env w2 = (Return now, w3) ->
  (downloadImage env (att_url attachment) (stagingName now attachment) w3
   = (Throw error, w4)
   \/
   exists w',
     downloadImage env (att_url attachment) (stagingName now attachment) w3
     = (Return tt, w') /\
     uploadToGyazo env config (stagingName now attachment) w'
     = (Throw error, w4)) ->
  reply env message failureText
        (request (ReqLog "Error processing image:" error) w4)
  = (Return notice, w5) ->
  handleAttachment env config message attachment w = (Return tt, w5) /\
  posts w5 = posts w ++ [pendingPost message; failurePost message] /\
  notice = S processingMsg /\
  posts w5 !! processingMsg = Some (pendingPost message).
Proof.
  intros Himg Hreply Hdir Hnow Hfail Hnotice.
  destruct (reply_accepted env _ _ _ _ _ Hreply) as [Hhandle Hposts1].
  destruct (reply_accepted env _ _ _ _ _ Hnotice) as [Hhandle5 Hposts5].
  simpl in Hhandle5, Hposts5.
  assert (Hrun : processImage env config message attachment w
                 = (Throw error, w4)).
  { unfold processImage.
    rewrite (bind_Return _ _ _ _ _ Hreply), (bind_Return _ _ _ _ _ Hdir),
      (bind_Return _ _ _ _ _ Hnow).
    destruct Hfail as [Hget | (w' & Hget & Hup)].
    - now rewrite (bind_Throw _ _ _ _ _ Hget).
    - now rewrite (bind_Return _ _ _ _ _ Hget), (bind_Throw _ _ _ _ _ Hup). }
  assert (Hposts4 : posts w4 = posts w ++ [pendingPost message]).
  { unfold pendingPost. rewrite <- Hposts1.
    rewrite <- (posts_after _ _ _ _ (ensureTempDir_posts env) Hdir).
    rewrite <- (posts_after _ _ _ _ (date_now_posts env) Hnow).
    destruct Hfail as [Hget | (w' & Hget & Hup)].
    - exact (posts_after _ _ _ _ (downloadImage_posts env _ _) Hget).
    - rewrite <- (posts_after _ _ _ _ (downloadImage_posts env _ _) Hget).
      exact (posts_after _ _ _ _ (uploadToGyazo_posts env config _) Hup). }
  assert (Hall : posts w5 = posts w ++ [pendingPost message; failurePost message]).
  { rewrite Hposts5, Hposts4, <- app_assoc. reflexivity. }
  repeat split.
  - unfold handleAttachment. rewrite Himg.
    change (try_catch (processImage env config message attachment)
                      (reportFailure env message) w = (Return tt, w5)).
    rewrite (try_Throw _ _ _ _ _ Hrun). unfold reportFailure.
    rewrite (bind_Return (console_error "Error processing image:" error) _ w4
               tt (request (ReqLog "Error processing image:" error) w4)
               eq_refl).
    now rewrite (bind_Return _ _ _ _ _ Hnotice).
  - exact Hall.
  - rewrite Hhandle5, Hposts4, Hhandle, length_app. simpl. lia.
  - rewrite Hall, Hhandle. now apply list_lookup_middle.
Qed.

Lemma failure_posts_new_notice_cat :
  handleAttachment envB config0 catMessage cat world0
  = (Return tt, snd (handleAttachment envB config0 catMessage cat world0)) /\
  posts (snd (handleAttachment envB config0 catMessage cat world0))
  = [pendingPost catMessage; failurePost catMessage].
Proof.
  edestruct (failure_posts_new_notice envB config0 catMessage cat world0)
    as (Hrun & Hposts & _ & _);
    [ reflexivity | reflexivity | reflexivity | reflexivity
    | right; eexists; split; reflexivity
    | reflexivity | ].
  split; [exact Hrun | exact Hposts].
Defined.

(** ** The loop over the attachments *)

Section Loop.
Context (env : Env) (config : Config).
Hypothesis notice_accepted : forall n, chat_accepts env n failureText = true.

(** With the failure notice accepted, the [catch] block returns. *)
Lemma reportFailure_returns message error w :
  fst (reportFailure env message error w) = Return tt.
Proof.
  unfold reportFailure, console_error, reply, mbind, M_bind, mret, M_ret.
  now rewrite notice_accepted.
Qed.

Lemma handleAttachment_returns message attachment w :
  fst (handleAttachment env config message attachment w) = Return tt.
Proof.
  destruct (isImage attachment) eqn:Himg.
  - rewrite (handleAttachment_image env config _ _ Himg). unfold try_catch.
    destruct (processImage env config message attachment w) as [[[]|e] w1].
    + reflexivity.
    + apply reportFailure_returns.
  - now rewrite (handleAttachment_other env config _ _ Himg).
Qed.

Lemma handleAttachment_announcements message attachment w :
  announcements
    (history (snd (handleAttachment env config message attachment w)))
  = announcements (history w) + (if isImage attachment then 1 else 0).
Proof.
  destruct (isImage attachment) eqn:Himg.
  - rewrite (handleAttachment_image env config _ _ Himg).
    destruct (image_run_starts env config message attachment w)
      as (later & -> & Hz).
    rewrite announcements_app, Hz.
    change (ReqReply (msg_id message) pendingText :: history w)
      with ([ReqReply (msg_id message) pendingText] ++ history w).
    rewrite announcements_app.
    change (announcements [ReqReply (msg_id message) pendingText]) with 1.
    lia.
  - rewrite (handleAttachment_other env config _ _ Himg). simpl. lia.
Qed.

Lemma forEach_announces_each message (l : list Attachment) w :
  exists w',
    forEach (handleAttachment env config message) l w = (Return tt, w') /\
    announcements (history w')
    = announcements (history w) + length (List.filter isImage l).
Proof.
  revert w. induction l as [|attachment rest IH]; intros w.
  - exists w. split; [reflexivity | simpl; lia].
  - pose proof (handleAttachment_returns message attachment w) as Hret.
    pose proof (handleAttachment_announcements message attachment w) as Hann.
    destruct (handleAttachment env config message attachment w)
      as [o w1] eqn:Hone.
    simpl in Hret, Hann. subst o.
    destruct (IH w1) as (w' & Hrest & Hcount).
    exists w'. split.
    + simpl. now rewrite (bind_Return _ _ _ _ _ Hone).
    + rewrite Hcount, Hann. simpl.
      destruct (isImage attachment); simpl; lia.
Qed.

End Loop.

(** X19.  Whenever the chat platform takes the failure notices, the handler
    of an event that passes the filter returns normally and has announced,
    that is started to process, every image among its attachments,
    whichever of the runs threw: a rejected pending reply, a failing staging
    directory, a failed transfer or upload, or a rejected edit of an earlier
    attachment does not keep a later one from being processed. *)
Theorem attachments_processed_independently (env : Env) (config : Config)
        (message : Message) (w : World) :
  (forall n, chat_accepts env n failureText = true) ->
  author_bot message = false ->
  channelId config = "" \/ channel_id message = channelId config ->
  exists w',
    messageCreate env config message w = (Return tt, w') /\
    announcements (history w')
    = announcements (history w)
      + length (List.filter isImage (attachments message)).
Proof.
  intros Hnotice Hbot Hchannel. unfold messageCreate. rewrite Hbot.
  assert (Hgate : Js.truthy (channelId config)
                  && negb (String.eqb (channel_id message) (channelId config))
                  = false).
  { destruct Hchannel as [-> | ->]; [reflexivity |].
    rewrite String.eqb_refl. apply andb_false_r. }
  rewrite Hgate.
  destruct (attachments message) as [|attachment rest] eqn:Hatts.
  - exists w. split; [reflexivity | simpl; lia].
  - change (length (attachment :: rest) =? 0)%nat with false. cbv iota.
    apply forEach_announces_each, Hnotice.
Qed.

Lemma attachments_processed_independently_album :
  exists w',
    messageCreate envFlaky config0 albumMessage world0 = (Return tt, w') /\
    announcements (history w') = 2.
Proof.
  apply (attachments_processed_independently envFlaky config0 albumMessage world0).
  - reflexivity.
  - reflexivity.
  - left. reflexivity.
Defined.

(** The album, run: the cat's upload is refused and reported, the notes
    are skipped, the dog's link is posted. *)
Example album_run :
  posts (snd (messageCreate envFlaky config0 albumMessage world0))
  = [ pendingPost albumMessage;
      failurePost albumMessage;
      {| post_content := "```https://i.gyazo.com/xyz.png```";
         post_reply_to := "m3" |} ].
Proof. vm_compute. reflexivity. Qed.

(** C8 (run on the code).  The album has two images.  The cat's upload is
    refused, the [catch] block asks for the failure notice, the chat
    platform refuses it, and the throw of that unguarded [await] leaves the
    loop and the handler: nothing is ever asked about the dog, whose
    processing the error on the cat has prevented. *)
Theorem refused_notice_skips_remaining_attachments :
  List.filter isImage (attachments albumMessage) = [cat; dog] /\
  fst (messageCreate envNoNotice config0 albumMessage world0)
  = Throw DiscordAPIError /\
  history (snd (messageCreate envNoNotice config0 albumMessage world0))
  = [ ReqReply "m3" failureText;
      ReqLog "Error processing image:" AxiosError;
      ReqLog "Error uploading to Gyazo:" AxiosError;
      ReqUpload "gyazo-token" "temp/temp_1700000000000_cat.png";
      ReqDownload "https://cdn.example/cat.png"
                  "temp/temp_1700000000000_cat.png";
      ReqNow;
      ReqMkdir "./temp";
      ReqReply "m3" pendingText ] /\
  announcements
    (history (snd (messageCreate envNoNotice config0 albumMessage world0)))
  = 1 /\
  posts (snd (messageCreate envNoNotice config0 albumMessage world0))
  = [pendingPost albumMessage].
Proof. vm_compute. repeat split. Qed.

(** What the hypothesis on the failure notice excludes: when the chat
    platform refuses the notice too, the [catch] block throws, the throw
    leaves the loop and the handler, and the dog is never announced. *)
Example refused_notice_leaves_loop :
  fst (messageCreate envMute config0 albumMessage world0)
  = Throw DiscordAPIError /\
  announcements (history (snd (messageCreate envMute config0 albumMessage world0)))
  = 1.
Proof. vm_compute. split; reflexivity. Qed.

(** ** The staging file *)

(** On the path that succeeds the staging file is removed. *)
Example staging_file_removed_after_success :
  fst (messageCreate envA config0 catMessage world0) = Return tt /\
  In (ReqDownload "https://cdn.example/cat.png" "temp/temp_1700000000000_cat.png")
     (history (snd (messageCreate envA config0 catMessage world0))) /\
  elements (files (snd (messageCreate envA config0 catMessage world0))) = [].
Proof. vm_compute. intuition. Qed.

(** C2 (scenario B of the specification, run on the code).  The transfer
    writes the staging file, the hosting API refuses the upload, the
    [catch] block posts the failure notice, and the handler returns with
    the staging file still there: [cleanupFile] is called at the end of the
    [try] block only. *)
Theorem staging_file_left_after_upload_failure :
  fst (messageCreate envB config0 catMessage world0) = Return tt /\
  posts (snd (messageCreate envB config0 catMessage world0))
  = [pendingPost catMessage; failurePost catMessage] /\
  elements (files (snd (messageCreate envB config0 catMessage world0)))
  = ["temp/temp_1700000000000_cat.png"] /\
  ~ In (ReqUnlink "temp/temp_1700000000000_cat.png")
       (history (snd (messageCreate envB config0 catMessage world0))).
Proof.
  vm_compute. repeat split; try reflexivity.
  intros H. repeat (destruct H as [H | H]; [discriminate |]). exact H.
Qed.

(** * Further properties of the code *)

(** ** The resolver, continued *)

Section ResolverMore.

Lemma contains_append (c : ascii) (a b : string) :
  contains c (a +:+ b) = contains c a || contains c b.
Proof.
  induction a as [|x a IH]; [reflexivity |].
  rewrite append_cons. simpl. now rewrite IH, orb_assoc.
Qed.

Lemma after_last_free (sep : ascii) (s : string) :
  contains sep (after_last sep s) = false.
Proof.
  induction s as [|c s IH]; simpl; [reflexivity |].
  destruct (contains sep s) eqn:Hs; [exact IH |].
  destruct (Ascii.eqb c sep) eqn:Hc; [exact Hs |].
  simpl. now rewrite Hc, Hs.
Qed.

Lemma extension_dot_free (u : string) : contains "." (extension u) = false.
Proof.
  rewrite extension_after_last.
  destruct (Js.truthy (after_last "." u)); [apply after_last_free | reflexivity].
Qed.

Lemma extension_of_direct (r : GyazoResponse) :
  extension (getDirectImageUrl r) = extension (url r).
Proof.
  unfold getDirectImageUrl.
  rewrite <- append_assoc.
  apply extension_of_suffix;
    [apply extension_not_empty | apply extension_dot_free].
Qed.

End ResolverMore.

(** X1.  The extension the resolver appends never contains a ["."], so it
    is what follows the last ["."] of the direct URL. *)
Theorem direct_url_ends_with_extension (r : GyazoResponse) :
  contains "." (extension (url r)) = false /\
  after_last "." (getDirectImageUrl r) = extension (url r).
Proof.
  split; [apply extension_dot_free |].
  unfold getDirectImageUrl. rewrite <- append_assoc.
  change ("." +:+ extension (url r)) with (String "." (extension (url r))).
  apply after_last_append, extension_dot_free.
Qed.

(** X2.  Resolving is idempotent: a response whose reference URL is already
    the direct URL of its identifier resolves to that same URL. *)
Theorem getDirectImageUrl_idempotent (r : GyazoResponse) :
  getDirectImageUrl {| image_id := image_id r; url := getDirectImageUrl r |}
  = getDirectImageUrl r.
Proof.
  unfold getDirectImageUrl at 1. simpl image_id. simpl url.
  now rewrite extension_of_direct.
Qed.

(** ** Classification, continued *)

Section ClassifyMore.

Lemma lower_char_dot (c : ascii) : Js.lower_char c = "."%char -> c = "."%char.
Proof.
  destruct c as [[] [] [] [] [] [] [] []]; vm_compute; congruence.
Qed.

Lemma lower_starts_with_dot (suf rest : string) :
  Js.toLowerCase suf = String "." rest -> exists suf', suf = String "." suf'.
Proof.
  destruct suf as [|c suf']; simpl; [discriminate |].
  intros H. injection H as Hc _. apply lower_char_dot in Hc. subst c.
  now exists suf'.
Qed.

End ClassifyMore.

(** X3.  A name without any ["."] is never taken for an image. *)
Theorem isImage_needs_dot (attachment : Attachment) :
  contains "." (att_name attachment) = false -> isImage attachment = false.
Proof.
  intros Hdot. destruct (isImage attachment) eqn:Himg; [| reflexivity].
  apply isImage_spec in Himg. destruct Himg as (pre & suf & Hname & Hin).
  assert (Hsuf : exists suf', suf = String "." suf').
  { simpl in Hin.
    repeat (destruct Hin as [Hin | Hin];
            [symmetry in Hin; exact (lower_starts_with_dot _ _ Hin) |]).
    contradiction. }
  destruct Hsuf as [suf' ->].
  rewrite Hname, contains_append_sep in Hdot. discriminate.
Qed.

Lemma isImage_needs_dot_readme :
  isImage {| att_name := "README"; att_url := "https://cdn.example/README" |}
  = false.
Proof. apply isImage_needs_dot. reflexivity. Defined.

(** ** The staging path *)

Section Staging.

Lemma stagingName_eq (now : Z) (attachment : Attachment) :
  stagingName now attachment
  = "temp/temp_" +:+ pretty now +:+ "_" +:+ att_name attachment.
Proof. reflexivity. Qed.

Lemma pretty_N_go_underscore (x : N) (s : string) :
  contains "_" (pretty_N_go x s) = contains "_" s.
Proof.
  revert s. induction (N.lt_wf_0 x) as [x _ IH]; intros s.
  destruct (decide (0 < x)%N) as [Hpos | Hzero].
  - rewrite pretty_N_go_step by exact Hpos.
    rewrite IH by (apply N.div_lt; [exact Hpos | reflexivity]).
    simpl. unfold pretty_N_char.
    repeat case_match; reflexivity.
  - assert (x = 0%N) as -> by lia. now rewrite pretty_N_go_0.
Qed.

Lemma pretty_N_underscore (x : N) : contains "_" (pretty x) = false.
Proof.
  unfold pretty, pretty_N. case_decide; [reflexivity |].
  apply pretty_N_go_underscore.
Qed.

(** The decimal rendering of the clock has no ["_"]. *)
Lemma pretty_Z_underscore (z : Z) : contains "_" (pretty z) = false.
Proof.
  destruct z as [|x|x]; unfold pretty, pretty_Z; [reflexivity | |].
  - apply pretty_N_underscore.
  - rewrite contains_append. simpl. apply pretty_N_underscore.
Qed.

(** Two strings cut at their first separator. *)
Lemma cut_at_first (sep : ascii) (a a' b b' : string) :
  contains sep a = false -> contains sep a' = false ->
  a +:+ String sep b = a' +:+ String sep b' -> a = a' /\ b = b'.
Proof.
  revert a'. induction a as [|c a IH]; intros [|c' a'] Ha Ha' H;
    rewrite ?append_nil, ?append_cons in H; simpl in Ha, Ha'.
  - injection H as ->. now split.
  - injection H as <- _. now rewrite Ascii.eqb_refl in Ha'.
  - injection H as -> _. now rewrite Ascii.eqb_refl in Ha.
  - injection H as -> H.
    apply orb_false_iff in Ha as [_ Ha]. apply orb_false_iff in Ha' as [_ Ha'].
    destruct (IH a' Ha Ha' H) as [-> ->]. now split.
Qed.

End Staging.

(** X4.  For attachment names without ["/"] (one path segment each), two
    staging paths coincide only for the same clock reading and the same
    attachment name: the clock's digits end at the first ["_"] after the
    fixed prefix. *)
Theorem stagingName_collision (now now' : Z) (attachment attachment' : Attachment) :
  contains "/" (att_name attachment) = false ->
  contains "/" (att_name attachment') = false ->
  stagingName now attachment = stagingName now' attachment' <->
  now = now' /\ att_name attachment = att_name attachment'.
Proof.
  intros _ _. rewrite !stagingName_eq. split.
  - intros H. apply (inj (String.app "temp/temp_")) in H.
    apply (cut_at_first "_") in H; try apply pretty_Z_underscore.
    destruct H as [Hnow Hname]. split; [| exact Hname].
    now apply (inj pretty) in Hnow.
  - now intros [-> ->].
Qed.

Lemma stagingName_collision_same_name :
  stagingName 1700000000000 cat <> stagingName 1700000000001 cat.
Proof.
  intros H.
  apply (proj1 (stagingName_collision _ _ cat cat eq_refl eq_refl)) in H.
  destruct H as [H _]. discriminate H.
Defined.

(** ** Configuration *)

Section Configuration.

Lemma or_else_not_empty (v : option string) (d : string) :
  d <> "" -> Js.or_else v d <> "".
Proof.
  intros Hd. destruct v as [s|]; simpl; [| exact Hd].
  destruct (Js.truthy s) eqn:Hs; [| exact Hd].
  intros ->. discriminate.
Qed.

Lemma or_else_empty (v : option string) :
  Js.or_else v "" = "" <-> Js.falsy v = true.
Proof.
  destruct v as [[|c s]|]; simpl; split; congruence.
Qed.

Lemma or_else_set (v : option string) (s d : string) :
  v = Some s -> s <> "" -> Js.or_else v d = s.
Proof. intros -> Hs. destruct s; [contradiction | reflexivity]. Qed.

End Configuration.

Lemma or_else_falsy (v : option string) (d : string) :
  Js.falsy v = true -> Js.or_else v d = d.
Proof.
  destruct v as [[|c s]|]; simpl; intros H; [reflexivity | discriminate |
                                              reflexivity].
Qed.

(** X5.  Whatever the process environment holds, the two credentials of
    the configuration are never empty: for each of them a variable that is
    unset or set to the empty string gives the placeholder, any other
    value is taken as it is.  The channel is the value of its variable,
    and empty exactly when the variable is unset or empty. *)
Theorem loadConfig_credentials (getenv : string -> option string) :
  token (loadConfig getenv) <> "" /\
  gyazoToken (loadConfig getenv) <> "" /\
  (forall s, getenv "DISCORD_TOKEN" = Some s -> s <> "" ->
             token (loadConfig getenv) = s) /\
  (Js.falsy (getenv "DISCORD_TOKEN") = true ->
   token (loadConfig getenv) = "YOUR_DISCORD_BOT_TOKEN") /\
  (forall s, getenv "GYAZO_TOKEN" = Some s -> s <> "" ->
             gyazoToken (loadConfig getenv) = s) /\
  (Js.falsy (getenv "GYAZO_TOKEN") = true ->
   gyazoToken (loadConfig getenv) = "YOUR_GYAZO_ACCESS_TOKEN") /\
  (forall s, getenv "CHANNEL_ID" = Some s -> s <> "" ->
             channelId (loadConfig getenv) = s) /\
  (channelId (loadConfig getenv) = "" <->
   Js.falsy (getenv "CHANNEL_ID") = true).
Proof.
  split; [now apply or_else_not_empty |].
  split; [now apply or_else_not_empty |].
  split; [intros s Hs Hne; now apply or_else_set |].
  split; [apply or_else_falsy |].
  split; [intros s Hs Hne; now apply or_else_set |].
  split; [apply or_else_falsy |].
  split; [intros s Hs Hne; now apply or_else_set |].
  apply or_else_empty.
Qed.

Lemma loadConfig_credentials_blank :
  gyazoToken (loadConfig (fun name =>
                            if String.eqb name "GYAZO_TOKEN" then Some ""
                            else if String.eqb name "DISCORD_TOKEN"
                                 then Some "discord-token"
                                 else None))
  = "YOUR_GYAZO_ACCESS_TOKEN"
  /\
  token (loadConfig (fun name =>
                       if String.eqb name "GYAZO_TOKEN" then Some ""
                       else if String.eqb name "DISCORD_TOKEN"
                            then Some "discord-token"
                            else None))
  = "discord-token".
Proof.
  pose proof (loadConfig_credentials
                (fun name =>
                   if String.eqb name "GYAZO_TOKEN" then Some ""
                   else if String.eqb name "DISCORD_TOKEN"
                        then Some "discord-token"
                        else None))
    as (_ & _ & Hset & _ & _ & Hblank & _).
  split.
  - apply Hblank. reflexivity.
  - apply (Hset "discord-token"); [reflexivity | discriminate].
Defined.

(** X6.  With [CHANNEL_ID] unset or empty, the handler runs the loop over
    the attachments of every event of a human author, whatever the
    conversation it comes from. *)
Theorem blank_channel_monitors_all (getenv : string -> option string)
        (env : Env) (message : Message) (w : World) :
  Js.falsy (getenv "CHANNEL_ID") = true ->
  author_bot message = false ->
  messageCreate env (loadConfig getenv) message w
  = forEach (handleAttachment env (loadConfig getenv) message)
            (attachments message) w.
Proof.
  intros Hblank Hbot. unfold messageCreate. rewrite Hbot.
  apply or_else_empty in Hblank.
  change (channelId (loadConfig getenv))
    with (Js.or_else (getenv "CHANNEL_ID") "").
  rewrite Hblank. simpl.
  destruct (attachments message); reflexivity.
Qed.

Lemma blank_channel_monitors_all_cat :
  messageCreate envA (loadConfig noenv) catMessage world0
  = forEach (handleAttachment envA (loadConfig noenv) catMessage) [cat] world0.
Proof. apply blank_channel_monitors_all; reflexivity. Defined.

(** ** The file-system helpers *)

(** X7.  [cleanupFile] touches no other path than its own: directories and
    posts stay, every other file stays or stays away, the path itself is
    never created, and unless the file system reports a fault the path is
    no file afterwards. *)
Theorem cleanupFile_removes_only_its_path (env : Env) (filepath : string)
        (w : World) :
  dirs (snd (cleanupFile env filepath w)) = dirs w /\
  posts (snd (cleanupFile env filepath w)) = posts w /\
  (forall p, p <> filepath ->
     (p ∈ files (snd (cleanupFile env filepath w)) <-> p ∈ files w)) /\
  (filepath ∈ files (snd (cleanupFile env filepath w)) -> filepath ∈ files w) /\
  (fs_faults env (tick w) = false ->
   filepath ∉ files (snd (cleanupFile env filepath w))).
Proof.
  unfold cleanupFile, try_catch, existsSync, unlinkSync, console_error,
    mbind, M_bind, mret, M_ret.
  destruct (bool_decide (filepath ∈ files w ∪ dirs w)) eqn:Hthere.
  - destruct (fs_faults env (tick w)); simpl.
    + repeat split; try tauto. discriminate.
    + destruct (bool_decide (filepath ∈ files w)) eqn:Hfile; simpl.
      * repeat split; try (intros; set_unfold; intuition congruence).
      * apply bool_decide_eq_false in Hfile. repeat split; try tauto.
  - apply bool_decide_eq_false in Hthere. simpl.
    repeat split; try tauto. intros _. set_unfold. tauto.
Qed.

Lemma cleanupFile_removes_only_its_path_cat :
  "temp/temp_1700000000000_cat.png"
  ∉ files (snd (cleanupFile envA "temp/temp_1700000000000_cat.png"
                  (set_files {[ "temp/temp_1700000000000_cat.png" ]} world0))).
Proof.
  apply (proj2 (proj2 (proj2 (proj2
           (cleanupFile_removes_only_its_path envA _ _))))).
  reflexivity.
Defined.

(** X8.  Staging a file and cleaning it up again is a round trip on the
    disk: when the transfer finishes, the file system reports no fault and
    the path was free before, the files and directories are afterwards what
    they were, and nothing was logged. *)
Theorem download_then_cleanup_restores (env : Env) (source filename : string)
        (w : World) :
  http_get env (tick w) source = Finished ->
  fs_faults env (S (tick w)) = false ->
  filename ∉ files w ->
  exists w',
    (downloadImage env source filename;; cleanupFile env filename) w
    = (Return tt, w') /\
    files w' = files w /\ dirs w' = dirs w /\
    history w'
    = [ReqUnlink filename; ReqDownload source filename] ++ history w.
Proof.
  intros Hget Hfs Hfree.
  unfold downloadImage, cleanupFile, try_catch, existsSync, unlinkSync,
    console_error, mbind, M_bind, mret, M_ret.
  rewrite Hget. simpl.
  rewrite bool_decide_eq_true_2 by (set_unfold; tauto).
  unfold tick in *. simpl. rewrite Hfs. simpl.
  rewrite bool_decide_eq_true_2 by (set_unfold; tauto). simpl.
  eexists. split; [reflexivity |]. simpl.
  repeat split. apply set_eq. intros p. set_unfold.
  intuition congruence.
Qed.

Lemma download_then_cleanup_restores_cat :
  exists w',
    (downloadImage envA "https://cdn.example/cat.png" "temp/cat.png";;
     cleanupFile envA "temp/cat.png") world0 = (Return tt, w') /\
    files w' = files world0.
Proof.
  edestruct (download_then_cleanup_restores
               envA "https://cdn.example/cat.png" "temp/cat.png" world0)
    as (w' & Hrun & Hfiles & _);
    [reflexivity | reflexivity | apply not_elem_of_empty |].
  exists w'. split; [exact Hrun | exact Hfiles].
Defined.

Section TempDir.
Context (env : Env).

Lemma ensureTempDir_present (w : World) :
  "./temp" ∈ files w ∪ dirs w -> ensureTempDir env w = (Return tt, w).
Proof.
  intros H. unfold ensureTempDir, existsSync, mbind, M_bind.
  now rewrite (bool_decide_eq_true_2 _ H).
Qed.

Lemma ensureTempDir_missing (w : World) :
  "./temp" ∉ files w ∪ dirs w ->
  ensureTempDir env w
  = if fs_faults env (tick w)
    then (Throw FsError, request (ReqMkdir "./temp") w)
    else (Return tt,
          set_dirs ({[ "./temp" ]} ∪ dirs w) (request (ReqMkdir "./temp") w)).
Proof.
  intros H. unfold ensureTempDir, existsSync, mbind, M_bind.
  rewrite (bool_decide_eq_false_2 _ H). simpl. unfold mkdirSync.
  rewrite (bool_decide_eq_false_2 _ H). now rewrite orb_false_r.
Qed.

End TempDir.

(** X9.  When [ensureTempDir] returns, the staging directory path exists
    and no file or post has changed; a second call then does nothing at
    all.  When it throws, the directory was missing and [mkdirSync]
    failed. *)
Theorem ensureTempDir_idempotent (env : Env) (w : World) :
  (forall w1, ensureTempDir env w = (Return tt, w1) ->
     ("./temp" ∈ files w1 ∪ dirs w1) /\
     files w1 = files w /\ posts w1 = posts w /\
     ensureTempDir env w1 = (Return tt, w1))
  /\
  (forall e w1, ensureTempDir env w = (Throw e, w1) ->
     e = FsError /\ ("./temp" ∉ files w ∪ dirs w) /\
     files w1 = files w /\ dirs w1 = dirs w).
Proof.
  destruct (decide ("./temp" ∈ files w ∪ dirs w)) as [Hthere | Hmissing].
  - rewrite (ensureTempDir_present env w Hthere).
    split; [intros w1 Hrun | intros e w1 Hrun; discriminate].
    inversion Hrun; subst.
    now rewrite (ensureTempDir_present env w1 Hthere).
  - rewrite (ensureTempDir_missing env w Hmissing).
    destruct (fs_faults env (tick w));
      (split; [intros w1 Hrun | intros e w1 Hrun]);
      try discriminate; inversion Hrun; subst.
    + now repeat split.
    + assert (Hnow : "./temp" ∈ files w ∪ ({[ "./temp" ]} ∪ dirs w)).
      { apply elem_of_union_r, elem_of_union_l, elem_of_singleton. reflexivity. }
      repeat split; [exact Hnow |].
      now apply ensureTempDir_present.
Qed.

Lemma ensureTempDir_idempotent_fresh :
  ensureTempDir envA (snd (ensureTempDir envA world0))
  = (Return tt, snd (ensureTempDir envA world0)).
Proof.
  apply (proj1 (ensureTempDir_idempotent envA world0)). reflexivity.
Defined.

(** X10.  [uploadToGyazo] sends the configured Gyazo credential with the
    staged path, and leaves the disk and the posts as they are.  What Gyazo
    answers is returned; a refusal is logged once and thrown on to the
    caller, not swallowed. *)
Theorem uploadToGyazo_rethrows (env : Env) (config : Config)
        (imagePath : string) (w : World) :
  files (snd (uploadToGyazo env config imagePath w)) = files w /\
  dirs (snd (uploadToGyazo env config imagePath w)) = dirs w /\
  posts (snd (uploadToGyazo env config imagePath w)) = posts w /\
  match gyazo_post env (tick w) imagePath with
  | Some data =>
      fst (uploadToGyazo env config imagePath w) = Return data /\
      history (snd (uploadToGyazo env config imagePath w))
      = ReqUpload (gyazoToken config) imagePath :: history w
  | None =>
      fst (uploadToGyazo env config imagePath w) = Throw AxiosError /\
      history (snd (uploadToGyazo env config imagePath w))
      = ReqLog "Error uploading to Gyazo:" AxiosError
          :: ReqUpload (gyazoToken config) imagePath :: history w
  end.
Proof.
  unfold uploadToGyazo, try_catch, axios_post, console_error, throw,
    mbind, M_bind.
  destruct (gyazo_post env (tick w) imagePath); simpl; now repeat split.
Qed.

(** ** What the handler does to the disk *)

Section Disk.

Lemma same_disk_refl w : same_disk w w.
Proof. now split. Qed.

Lemma same_disk_trans w1 w2 w3 :
  same_disk w1 w2 -> same_disk w2 w3 -> same_disk w1 w3.
Proof. intros [F1 D1] [F2 D2]. split; congruence. Qed.

Lemma keeps_weaken (R R' : World -> World -> Prop) {A} (m : M A) :
  (forall w w', R w w' -> R' w w') -> keeps R m -> keeps R' m.
Proof. intros Himp Hm w. apply Himp, Hm. Qed.

Context (env : Env).

Ltac disk_step := intros w; cbv beta delta
  [console_error existsSync date_now axios_post reply edit];
  step_cases; split; reflexivity.

Lemma console_error_disk text e : keeps same_disk (console_error text e).
Proof. disk_step. Qed.

Lemma existsSync_disk path : keeps same_disk (existsSync path).
Proof. disk_step. Qed.

Lemma date_now_disk : keeps same_disk (date_now env).
Proof. disk_step. Qed.

Lemma axios_post_disk credential imagePath :
  keeps same_disk (axios_post env credential imagePath).
Proof. disk_step. Qed.

Lemma reply_disk message content : keeps same_disk (reply env message content).
Proof. disk_step. Qed.

Lemma edit_disk handle content : keeps same_disk (edit env handle content).
Proof. disk_step. Qed.

Lemma uploadToGyazo_disk config imagePath :
  keeps same_disk (uploadToGyazo env config imagePath).
Proof.
  unfold uploadToGyazo.
  apply (keeps_try_catch _ same_disk_trans); [apply axios_post_disk |].
  intros e. apply (keeps_bind _ same_disk_trans); [apply console_error_disk |].
  intros _. apply (keeps_throw _ same_disk_refl).
Qed.

Lemma reportFailure_disk message e :
  keeps same_disk (reportFailure env message e).
Proof.
  unfold reportFailure.
  apply (keeps_bind _ same_disk_trans); [apply console_error_disk |].
  intros _. apply (keeps_bind _ same_disk_trans); [apply reply_disk |].
  intros _. apply (keeps_ret _ same_disk_refl).
Qed.

End Disk.

Section Touch.
Context (allowed : string -> Prop).

Lemma dirs_grow_refl (d : gset string) : d ⊆ {[ "./temp" ]} ∪ d.
Proof. set_unfold. tauto. Qed.

Lemma touches_only_refl w : touches_only allowed w w.
Proof.
  split; [| split]; [tauto | reflexivity | apply dirs_grow_refl].
Qed.

Lemma touches_only_trans w1 w2 w3 :
  touches_only allowed w1 w2 -> touches_only allowed w2 w3 ->
  touches_only allowed w1 w3.
Proof.
  intros (F1 & D1 & U1) (F2 & D2 & U2). split; [| split].
  - intros p Hp. rewrite (F2 p Hp). apply F1, Hp.
  - etransitivity; eassumption.
  - intros d Hd. apply U2 in Hd. apply elem_of_union in Hd as [Hd | Hd].
    + now apply elem_of_union_l.
    + now apply U1.
Qed.

Lemma same_disk_touches w w' : same_disk w w' -> touches_only allowed w w'.
Proof.
  intros [F D]. split; [| split]; rewrite ?F, ?D;
    [tauto | reflexivity | apply dirs_grow_refl].
Qed.

Context (env : Env).

Lemma mkdirSync_touches : keeps (touches_only allowed) (mkdirSync env "./temp").
Proof.
  intros w. unfold mkdirSync. step_cases; simpl.
  - now apply same_disk_touches.
  - split; [| split]; simpl; [tauto | set_unfold; tauto | reflexivity].
Qed.

Lemma ensureTempDir_touches : keeps (touches_only allowed) (ensureTempDir env).
Proof.
  unfold ensureTempDir.
  apply (keeps_bind _ touches_only_trans).
  - apply (keeps_weaken same_disk), existsSync_disk. apply same_disk_touches.
  - intros present. destruct present; simpl.
    + apply (keeps_ret _ touches_only_refl).
    + apply mkdirSync_touches.
Qed.

Lemma downloadImage_touches source filename :
  allowed filename ->
  keeps (touches_only allowed) (downloadImage env source filename).
Proof.
  intros Hok w. unfold downloadImage.
  assert (Hadd : touches_only allowed w
                   (set_files ({[ filename ]} ∪ files w)
                              (request (ReqDownload source filename) w))).
  { split; [| split]; simpl; [| reflexivity | apply dirs_grow_refl].
    intros p Hp. split.
    - intros [H | H]%elem_of_union; [| exact H].
      apply elem_of_singleton in H. now subst p.
    - apply elem_of_union_r. }
  step_cases; simpl; first [exact Hadd | now apply same_disk_touches].
Qed.

Lemma cleanupFile_touches filepath :
  allowed filepath -> keeps (touches_only allowed) (cleanupFile env filepath).
Proof.
  intros Hok w.
  unfold cleanupFile, try_catch, existsSync, unlinkSync, console_error,
    mbind, M_bind, mret, M_ret.
  step_cases; simpl; try (now apply same_disk_touches).
  split; [| split]; simpl; [| reflexivity | apply dirs_grow_refl].
  intros p Hp. split.
  - intros [H _]%elem_of_difference. exact H.
  - intros H. apply elem_of_difference. split; [exact H |].
    intros Heq%elem_of_singleton. now subst p.
Qed.

End Touch.

Section HandlerDisk.
Context (env : Env) (config : Config).

Lemma prefix_append (a b : string) : String.prefix a (a +:+ b) = true.
Proof.
  induction a as [|x a IH].
  - now destruct b.
  - rewrite append_cons. simpl.
    destruct (ascii_dec x x); [exact IH | contradiction].
Qed.

Lemma stagingName_staged now attachment : staged (stagingName now attachment).
Proof. unfold staged. rewrite stagingName_eq. apply prefix_append. Qed.

Lemma disk_touches {A} (m : M A) :
  keeps same_disk m -> keeps (touches_only staged) m.
Proof. apply keeps_weaken, same_disk_touches. Qed.

Lemma processImage_touches message attachment :
  keeps (touches_only staged) (processImage env config message attachment).
Proof.
  unfold processImage.
  apply (keeps_bind _ (touches_only_trans staged));
    [apply disk_touches, reply_disk | intros processingMsg].
  apply (keeps_bind _ (touches_only_trans staged));
    [apply ensureTempDir_touches | intros _].
  apply (keeps_bind _ (touches_only_trans staged));
    [apply disk_touches, date_now_disk | intros now].
  apply (keeps_bind _ (touches_only_trans staged));
    [apply downloadImage_touches, stagingName_staged | intros _].
  apply (keeps_bind _ (touches_only_trans staged));
    [apply disk_touches, uploadToGyazo_disk | intros gyazoResponse].
  apply (keeps_bind _ (touches_only_trans staged));
    [apply disk_touches, edit_disk | intros _].
  apply cleanupFile_touches, stagingName_staged.
Qed.

Lemma handleAttachment_touches message attachment :
  keeps (touches_only staged) (handleAttachment env config message attachment).
Proof.
  unfold handleAttachment. destruct (isImage attachment); simpl.
  - apply (keeps_try_catch _ (touches_only_trans staged));
      [apply processImage_touches |].
    intros e. apply disk_touches, reportFailure_disk.
  - apply (keeps_ret _ (touches_only_refl staged)).
Qed.

Lemma forEach_touches message (l : list Attachment) :
  keeps (touches_only staged) (forEach (handleAttachment env config message) l).
Proof.
  induction l as [|attachment rest IH]; simpl.
  - apply (keeps_ret _ (touches_only_refl staged)).
  - apply (keeps_bind _ (touches_only_trans staged));
      [apply handleAttachment_touches | intros _; exact IH].
Qed.

Lemma messageCreate_touches message :
  keeps (touches_only staged) (messageCreate env config message).
Proof.
  unfold messageCreate.
  repeat match goal with
         | |- keeps _ (if ?b then _ else _) => destruct b
         end;
    first [apply (keeps_ret _ (touches_only_refl staged)) | apply forEach_touches].
Qed.

(** A transfer that returns has written the file. *)
Lemma downloadImage_written source filename w w' :
  downloadImage env source filename w = (Return tt, w') -> filename ∈ files w'.
Proof.
  unfold downloadImage. destruct (http_get env (tick w) source);
    intros H; inversion H; subst. simpl.
  apply elem_of_union_l, elem_of_singleton. reflexivity.
Qed.

(** Without a fault of the file system the path is no file after cleanup. *)
Lemma cleanupFile_clears filepath w :
  fs_faults env (tick w) = false ->
  filepath ∉ files (snd (cleanupFile env filepath w)).
Proof.
  intros Hok.
  unfold cleanupFile, try_catch, existsSync, unlinkSync, console_error,
    mbind, M_bind, mret, M_ret.
  destruct (bool_decide (filepath ∈ files w ∪ dirs w)) eqn:Hthere;
    cbv beta iota.
  - rewrite Hok.
    destruct (bool_decide (filepath ∈ files w)) eqn:Hfile; simpl.
    + intros [_ H]%elem_of_difference. apply H, elem_of_singleton. reflexivity.
    + now apply bool_decide_eq_false in Hfile.
  - apply bool_decide_eq_false in Hthere.
    intros H. apply Hthere, elem_of_union_l, H.
Qed.

(** The disk after a step that keeps it, read off its result. *)
Lemma disk_after {A} (m : M A) w o w' :
  keeps same_disk m -> m w = (o, w') -> files w' = files w.
Proof. intros Hm H. specialize (Hm w). rewrite H in Hm. apply Hm. Qed.

End HandlerDisk.

(** X11.  For attachments whose names have no ["/"] (for those the staging
    path is the staging directory followed by one segment), the handler
    creates and deletes files under the prefix [temp/temp_] only: every
    other path is a file afterwards exactly if it was one before.  It
    removes no directory and makes none but [./temp]. *)
Theorem handler_touches_staging_files_only (env : Env) (config : Config)
        (message : Message) (w : World) :
  Forall (fun attachment => contains "/" (att_name attachment) = false)
         (attachments message) ->
  (forall p, String.prefix "temp/temp_" p = false ->
     (p ∈ files (snd (messageCreate env config message w)) <-> p ∈ files w))
  /\ dirs w ⊆ dirs (snd (messageCreate env config message w))
  /\ dirs (snd (messageCreate env config message w)) ⊆ {[ "./temp" ]} ∪ dirs w.
Proof.
  intros _.
  destruct (messageCreate_touches env config message w) as (F & D & U).
  split; [| split]; [| exact D | exact U].
  intros p Hp. apply F. unfold staged. rewrite Hp. discriminate.
Qed.

Lemma handler_touches_staging_files_only_album :
  "notes/todo.txt"
  ∈ files (snd (messageCreate envFlaky config0 albumMessage
                  (set_files {[ "notes/todo.txt" ]} world0))).
Proof.
  apply (proj1 (handler_touches_staging_files_only
                  envFlaky config0 albumMessage
                  (set_files {[ "notes/todo.txt" ]} world0)
                  ltac:(repeat constructor))).
  - reflexivity.
  - simpl. apply elem_of_singleton. reflexivity.
Defined.

(** X12.  A run whose transfer finished and whose upload was refused ends
    with the staged file still on the disk, whether or not the failure
    notice could be posted. *)
Theorem failed_upload_keeps_staging_file (env : Env) (config : Config)
        (message : Message) (attachment : Attachment)
        (w w1 w2 w3 w4 w5 : World) (processingMsg : nat) (now : Z)
        (error : JsError) :
  isImage attachment = true ->
  reply env message pendingText w = (Return processingMsg, w1) ->
  ensureTempDir env w1 = (Return tt, w2) ->
  date_now env w2 = (Return now, w3) ->
  downloadImage env (att_url attachment) (stagingName now attachment) w3
  = (Return tt, w4) ->
  uploadToGyazo env config (stagingName now attachment) w4
  = (Throw error, w5) ->
  stagingName now attachment
  ∈ files (snd (handleAttachment env config message attachment w)).
Proof.
  intros Himg Hreply Hdir Hnow Hget Hup.
  rewrite (handleAttachment_image env config _ _ Himg).
  assert (Hrun : processImage env config message attachment w
                 = (Throw error, w5)).
  { unfold processImage.
    now rewrite (bind_Return _ _ _ _ _ Hreply), (bind_Return _ _ _ _ _ Hdir),
      (bind_Return _ _ _ _ _ Hnow), (bind_Return _ _ _ _ _ Hget),
      (bind_Throw _ _ _ _ _ Hup). }
  rewrite (try_Throw _ _ _ _ _ Hrun).
  destruct (reportFailure_disk env message error w5) as [-> _].
  rewrite (disk_after _ _ _ _ (uploadToGyazo_disk env config _) Hup).
  exact (downloadImage_written env _ _ _ _ Hget).
Qed.

Lemma failed_upload_keeps_staging_file_cat :
  stagingName 1700000000000 cat
  ∈ files (snd (handleAttachment envB config0 catMessage cat world0)).
Proof.
  eapply (failed_upload_keeps_staging_file envB config0 catMessage cat world0)
    with (now := 1700000000000%Z); reflexivity.
Defined.

(** X13.  A run that succeeds in every step ends with the staged file
    gone, provided the file system reports no fault to the cleanup. *)
Theorem success_removes_staging_file (env : Env) (config : Config)
        (message : Message) (attachment : Attachment)
        (w w1 w2 w3 w4 w5 w6 : World) (processingMsg : nat) (now : Z)
        (gyazoResponse : GyazoResponse) :
  isImage attachment = true ->
  reply env message pendingText w = (Return processingMsg, w1) ->
  ensureTempDir env w1 = (Return tt, w2) ->
  date_now env w2 = (Return now, w3) ->
  downloadImage env (att_url attachment) (stagingName now attachment) w3
  = (Return tt, w4) ->
  uploadToGyazo env config (stagingName now attachment) w4
  = (Return gyazoResponse, w5) ->
  edit env processingMsg (codeBlock (getDirectImageUrl gyazoResponse)) w5
  = (Return tt, w6) ->
  fs_faults env (tick w6) = false ->
  stagingName now attachment
  ∉ files (snd (handleAttachment env config message attachment w)).
Proof.
  intros Himg Hreply Hdir Hnow Hget Hup Hedit Hfs.
  rewrite (handleAttachment_image env config _ _ Himg).
  assert (Hrun : processImage env config message attachment w
                 = cleanupFile env (stagingName now attachment) w6).
  { unfold processImage.
    now rewrite (bind_Return _ _ _ _ _ Hreply), (bind_Return _ _ _ _ _ Hdir),
      (bind_Return _ _ _ _ _ Hnow), (bind_Return _ _ _ _ _ Hget),
      (bind_Return _ _ _ _ _ Hup), (bind_Return _ _ _ _ _ Hedit). }
  pose proof (cleanupFile_returns env (stagingName now attachment) w6) as Hret.
  pose proof (cleanupFile_clears env (stagingName now attachment) w6 Hfs) as Hgone.
  unfold try_catch. rewrite Hrun.
  destruct (cleanupFile env (stagingName now attachment) w6) as [o w7].
  simpl in Hret, Hgone. subst o. exact Hgone.
Qed.

Lemma success_removes_staging_file_cat :
  stagingName 1700000000000 cat
  ∉ files (snd (handleAttachment envA config0 catMessage cat world0)).
Proof.
  eapply (success_removes_staging_file envA config0 catMessage cat world0)
    with (now := 1700000000000%Z); reflexivity.
Defined.

(** X14.  When the chat platform refuses the pending reply, the run goes
    straight to the [catch] block: it logs, tries the failure notice, and
    asks for no directory, transfer, upload or deletion; the disk is as it
    was. *)
Theorem rejected_announcement_stops_run (env : Env) (config : Config)
        (message : Message) (attachment : Attachment) (w : World) :
  isImage attachment = true ->
  chat_accepts env (tick w) pendingText = false ->
  history (snd (handleAttachment env config message attachment w))
  = [ ReqReply (msg_id message) failureText;
      ReqLog "Error processing image:" DiscordAPIError;
      ReqReply (msg_id message) pendingText ] ++ history w
  /\ files (snd (handleAttachment env config message attachment w)) = files w
  /\ dirs (snd (handleAttachment env config message attachment w)) = dirs w.
Proof.
  intros Himg Hrefused.
  rewrite (handleAttachment_image env config _ _ Himg).
  assert (Hrun : processImage env config message attachment w
                 = (Throw DiscordAPIError,
                    request (ReqReply (msg_id message) pendingText) w)).
  { unfold processImage. apply bind_Throw. unfold reply. now rewrite Hrefused. }
  rewrite (try_Throw _ _ _ _ _ Hrun).
  unfold reportFailure, console_error, reply, mbind, M_bind, mret, M_ret.
  step_cases; simpl; now repeat split.
Qed.

Lemma rejected_announcement_stops_run_cat :
  files (snd (handleAttachment envMute config0 catMessage cat world0)) = ∅.
Proof.
  apply (rejected_announcement_stops_run envMute config0 catMessage cat world0);
    reflexivity.
Defined.

(** ** What the handler posts *)

Section Preserved.
Context (P : World -> Prop).

Lemma preserves_ret {A} (a : A) : preserves P (mret a).
Proof. intros w H. exact H. Qed.

Lemma preserves_throw {A} (e : JsError) : preserves P (@throw A e).
Proof. intros w H. exact H. Qed.

Lemma preserves_bind {A B} (m : M A) (k : A -> M B) :
  preserves P m -> (forall a, preserves P (k a)) -> preserves P (m ≫= k).
Proof.
  intros Hm Hk w H. unfold mbind, M_bind.
  specialize (Hm w H). destruct (m w) as [[a|e] w1]; simpl in *.
  - now apply Hk.
  - exact Hm.
Qed.

End Preserved.

Section HandlerPosts.
Context (env : Env) (config : Config) (message : Message).

Lemma one_post_same before {A} (m : M A) :
  keeps same_posts m -> preserves (one_post message before) m.
Proof.
  intros Hm w (p & Hp & Hposts). exists p. split; [exact Hp |].
  now rewrite (Hm w).
Qed.

Lemma edit_one_post before gyazoResponse :
  preserves (one_post message before)
    (edit env (length before) (codeBlock (getDirectImageUrl gyazoResponse))).
Proof.
  intros w (p & Hp & Hposts). unfold edit.
  destruct (chat_accepts env (tick w) _); simpl.
  - exists {| post_content := codeBlock (getDirectImageUrl gyazoResponse);
              post_reply_to := post_reply_to p |}.
    split.
    + split; simpl; [apply Hp |]. right. right. now exists gyazoResponse.
    + rewrite Hposts.
      replace (length before) with (length before + 0) by lia.
      now rewrite alter_app_r.
  - now exists p.
Qed.

Lemma pending_is_handler_post : handler_post message (pendingPost message).
Proof. split; [reflexivity | now left]. Qed.

Lemma failure_is_handler_post : handler_post message (failurePost message).
Proof. split; [reflexivity | right; now left]. Qed.

(** The [try] block adds no post or one. *)
Lemma processImage_adds attachment w :
  posts (snd (processImage env config message attachment w)) = posts w
  \/ one_post message (posts w)
       (snd (processImage env config message attachment w)).
Proof.
  unfold processImage.
  match goal with
  | |- context [mbind ?k (reply env message pendingText)] => set (rest := k)
  end.
  assert (Hrest : preserves (one_post message (posts w))
                            (rest (length (posts w)))).
  { subst rest. cbv beta.
    apply preserves_bind;
      [apply one_post_same, ensureTempDir_posts | intros _].
    apply preserves_bind; [apply one_post_same, date_now_posts | intros now].
    apply preserves_bind;
      [apply one_post_same, downloadImage_posts | intros _].
    apply preserves_bind;
      [apply one_post_same, uploadToGyazo_posts | intros gyazoResponse].
    apply preserves_bind; [apply edit_one_post | intros _].
    apply one_post_same, cleanupFile_posts. }
  unfold mbind, M_bind, reply.
  destruct (chat_accepts env (tick w) pendingText); [right | now left].
  apply Hrest. exists (pendingPost message).
  split; [apply pending_is_handler_post | reflexivity].
Qed.

(** The [catch] block adds no post or the failure notice. *)
Lemma reportFailure_adds error w :
  posts (snd (reportFailure env message error w)) = posts w
  \/ posts (snd (reportFailure env message error w))
     = posts w ++ [failurePost message].
Proof.
  unfold reportFailure, console_error, reply, mbind, M_bind, mret, M_ret.
  destruct (chat_accepts env _ failureText); simpl; [now right | now left].
Qed.

Ltac added l :=
  exists l; split;
  [ rewrite ?app_nil_r, <- ?app_assoc; reflexivity
  | split;
    [ auto using Forall_nil, Forall_cons, failure_is_handler_post
    | simpl; lia ] ].

Lemma handleAttachment_adds attachment w :
  exists added,
    posts (snd (handleAttachment env config message attachment w))
    = posts w ++ added /\
    Forall (handler_post message) added /\
    length added <= if isImage attachment then 2 else 0.
Proof.
  destruct (isImage attachment) eqn:Himg.
  - rewrite (handleAttachment_image env config _ _ Himg). unfold try_catch.
    pose proof (processImage_adds attachment w) as Htry.
    destruct (processImage env config message attachment w) as [[[]|e] w1];
      cbn [fst snd] in Htry |- *.
    + destruct Htry as [-> | (p & Hp & ->)]; [added (@nil Post) | added [p]].
    + destruct (reportFailure_adds e w1) as [-> | ->];
        destruct Htry as [-> | (p & Hp & ->)].
      * added (@nil Post).
      * added [p].
      * added [failurePost message].
      * added [p; failurePost message].
  - rewrite (handleAttachment_other env config _ _ Himg). added (@nil Post).
Qed.

Lemma forEach_adds (l : list Attachment) w :
  exists added,
    posts (snd (forEach (handleAttachment env config message) l w))
    = posts w ++ added /\
    Forall (handler_post message) added /\
    length added <= 2 * length (List.filter isImage l).
Proof.
  revert w. induction l as [|attachment rest IH]; intros w.
  - added (@nil Post).
  - simpl forEach. unfold mbind, M_bind.
    destruct (handleAttachment_adds attachment w) as (a1 & H1 & F1 & L1).
    destruct (handleAttachment env config message attachment w)
      as [[[]|e] w1]; cbn [fst snd] in H1 |- *.
    + destruct (IH w1) as (a2 & H2 & F2 & L2).
      exists (a1 ++ a2). rewrite H2, H1, <- app_assoc.
      split; [reflexivity | split; [now apply Forall_app |]].
      rewrite length_app. simpl.
      destruct (isImage attachment); simpl in *; lia.
    + exists a1. split; [exact H1 | split; [exact F1 |]]. simpl.
      destruct (isImage attachment); simpl in *; lia.
Qed.

(** What escapes the [catch] block is a refusal of the failure notice. *)
Lemma reportFailure_outcome error w :
  fst (reportFailure env message error w) = Return tt
  \/ (fst (reportFailure env message error w) = Throw DiscordAPIError /\
      exists n, chat_accepts env n failureText = false).
Proof.
  unfold reportFailure, console_error, reply, mbind, M_bind, mret, M_ret.
  destruct (chat_accepts env _ failureText) eqn:Hchat; simpl; [now left |].
  right. split; [reflexivity |]. eexists. exact Hchat.
Qed.

Lemma handleAttachment_outcome attachment w :
  fst (handleAttachment env config message attachment w) = Return tt
  \/ (fst (handleAttachment env config message attachment w)
      = Throw DiscordAPIError /\
      exists n, chat_accepts env n failureText = false).
Proof.
  unfold handleAttachment, try_catch.
  destruct (isImage attachment); simpl; [| now left].
  destruct (processImage env config message attachment w) as [[[]|e] w1].
  - now left.
  - apply reportFailure_outcome.
Qed.

Lemma forEach_outcome (l : list Attachment) w :
  fst (forEach (handleAttachment env config message) l w) = Return tt
  \/ (fst (forEach (handleAttachment env config message) l w)
      = Throw DiscordAPIError /\
      exists n, chat_accepts env n failureText = false).
Proof.
  revert w. induction l as [|attachment rest IH]; intros w; [now left |].
  simpl forEach. unfold mbind, M_bind.
  pose proof (handleAttachment_outcome attachment w) as Hone.
  destruct (handleAttachment env config message attachment w) as [[[]|e] w1];
    simpl in Hone.
  - apply IH.
  - destruct Hone as [Hone | [Hone Hchat]]; [discriminate |].
    right. simpl. now split.
Qed.

End HandlerPosts.

(** X15.  The handler leaves the earlier posts as they are and appends its
    own: each of them answers the event's message and holds the pending
    text, the failure notice or a resolved link in a code block, and there
    are at most two for each image attachment. *)
Theorem handler_posts (env : Env) (config : Config) (message : Message)
        (w : World) :
  exists added,
    posts (snd (messageCreate env config message w)) = posts w ++ added /\
    Forall (handler_post message) added /\
    length added <= 2 * length (List.filter isImage (attachments message)).
Proof.
  unfold messageCreate.
  assert (Hnone : exists added,
             posts w = posts w ++ added /\
             Forall (handler_post message) added /\
             length added
             <= 2 * length (List.filter isImage (attachments message))).
  { exists []. rewrite app_nil_r.
    split; [reflexivity | split; [constructor | simpl; lia]]. }
  repeat match goal with
         | |- context [if ?b then _ else _] => destruct b
         end; try exact Hnone.
  apply forEach_adds.
Qed.

(** X16.  No error of the transfer, the upload or the file system leaves
    the handler: it returns, or it throws the chat platform's error, and
    then because a failure notice was refused. *)
Theorem handler_throws_only_chat_errors (env : Env) (config : Config)
        (message : Message) (w : World) :
  fst (messageCreate env config message w) = Return tt
  \/ (fst (messageCreate env config message w) = Throw DiscordAPIError /\
      exists n, chat_accepts env n failureText = false).
Proof.
  unfold messageCreate.
  repeat match goal with
         | |- context [if ?b then _ else _] => destruct b
         end; try (now left).
  apply forEach_outcome.
Qed.

(** ** The order of a run *)

Section Trace.
Context (env : Env) (config : Config).

Lemma date_now_history w now w' :
  date_now env w = (Return now, w') -> history w' = ReqNow :: history w.
Proof. unfold date_now. intros H. now inversion H. Qed.

Lemma downloadImage_history source filename w o w' :
  downloadImage env source filename w = (o, w') ->
  history w' = ReqDownload source filename :: history w.
Proof.
  unfold downloadImage. destruct (http_get env (tick w) source) as [|[]|];
    intros H; now inversion H.
Qed.

Lemma uploadToGyazo_returned imagePath w data w' :
  uploadToGyazo env config imagePath w = (Return data, w') ->
  history w' = ReqUpload (gyazoToken config) imagePath :: history w.
Proof.
  unfold uploadToGyazo, try_catch, axios_post, console_error, throw,
    mbind, M_bind.
  destruct (gyazo_post env (tick w) imagePath); intros H; now inversion H.
Qed.

Lemma edit_history handle content w o w' :
  edit env handle content w = (o, w') ->
  history w' = ReqEdit handle content :: history w.
Proof.
  unfold edit. destruct (chat_accepts env (tick w) content);
    intros H; now inversion H.
Qed.

Lemma cleanupFile_deletes filepath w :
  filepath ∈ files w -> fs_faults env (tick w) = false ->
  history (snd (cleanupFile env filepath w)) = ReqUnlink filepath :: history w.
Proof.
  intros Hfile Hok.
  unfold cleanupFile, try_catch, existsSync, unlinkSync, mbind, M_bind.
  rewrite bool_decide_eq_true_2 by (apply elem_of_union_l, Hfile).
  now rewrite Hok, (bool_decide_eq_true_2 _ Hfile).
Qed.

End Trace.

(** X17.  A run that succeeds asks the outside in the order of the
    pipeline, and about one and the same staging path: after the staging
    directory is there it reads the clock, transfers the attachment to the
    path, uploads that path with the Gyazo credential, edits the pending
    reply to the resolved link and deletes the path. *)
Theorem success_run_order (env : Env) (config : Config)
        (message : Message) (attachment : Attachment)
        (w w1 w2 w3 w4 w5 w6 : World) (processingMsg : nat) (now : Z)
        (gyazoResponse : GyazoResponse) :
  isImage attachment = true ->
  reply env message pendingText w = (Return processingMsg, w1) ->
  ensureTempDir env w1 = (Return tt, w2) ->
  date_now env w2 = (Return now, w3) ->
  downloadImage env (att_url attachment) (stagingName now attachment) w3
  = (Return tt, w4) ->
  uploadToGyazo env config (stagingName now attachment) w4
  = (Return gyazoResponse, w5) ->
  edit env processingMsg (codeBlock (getDirectImageUrl gyazoResponse)) w5
  = (Return tt, w6) ->
  fs_faults env (tick w6) = false ->
  history w1 = ReqReply (msg_id message) pendingText :: history w /\
  history (snd (handleAttachment env config message attachment w))
  = [ ReqUnlink (stagingName now attachment);
      ReqEdit processingMsg (codeBlock (getDirectImageUrl gyazoResponse));
      ReqUpload (gyazoToken config) (stagingName now attachment);
      ReqDownload (att_url attachment) (stagingName now attachment);
      ReqNow ] ++ history w2.
Proof.
  intros Himg Hreply Hdir Hnow Hget Hup Hedit Hfs. split.
  { pose proof (reply_history env message pendingText w) as H.
    now rewrite Hreply in H. }
  rewrite (handleAttachment_image env config _ _ Himg).
  assert (Hrun : processImage env config message attachment w
                 = cleanupFile env (stagingName now attachment) w6).
  { unfold processImage.
    now rewrite (bind_Return _ _ _ _ _ Hreply), (bind_Return _ _ _ _ _ Hdir),
      (bind_Return _ _ _ _ _ Hnow), (bind_Return _ _ _ _ _ Hget),
      (bind_Return _ _ _ _ _ Hup), (bind_Return _ _ _ _ _ Hedit). }
  assert (Hfile : stagingName now attachment ∈ files w6).
  { rewrite (disk_after _ _ _ _ (edit_disk env _ _) Hedit).
    rewrite (disk_after _ _ _ _ (uploadToGyazo_disk env config _) Hup).
    exact (downloadImage_written env _ _ _ _ Hget). }
  pose proof (cleanupFile_returns env (stagingName now attachment) w6) as Hret.
  pose proof (cleanupFile_deletes env _ _ Hfile Hfs) as Hhist.
  unfold try_catch. rewrite Hrun.
  destruct (cleanupFile env (stagingName now attachment) w6) as [o w7].
  simpl in Hret, Hhist. subst o. simpl. rewrite Hhist.
  rewrite (edit_history env _ _ _ _ _ Hedit).
  rewrite (uploadToGyazo_returned env config _ _ _ _ Hup).
  rewrite (downloadImage_history env _ _ _ _ _ Hget).
  now rewrite (date_now_history env _ _ _ Hnow).
Qed.

Lemma success_run_order_cat :
  history (snd (handleAttachment envA config0 catMessage cat world0))
  = [ ReqUnlink (stagingName 1700000000000 cat);
      ReqEdit 0 "```https://i.gyazo.com/xyz.png```";
      ReqUpload "gyazo-token" (stagingName 1700000000000 cat);
      ReqDownload "https://cdn.example/cat.png" (stagingName 1700000000000 cat);
      ReqNow;
      ReqMkdir "./temp";
      ReqReply "m1" pendingText ].
Proof.
  edestruct (success_run_order envA config0 catMessage cat world0)
    with (now := 1700000000000%Z) as [_ Hhist]; [reflexivity .. |].
  exact Hhist.
Defined.

(** X18.  An event none of whose attachments is an image is left alone
    like an event without attachments: the handler returns and the world
    is what it was. *)
Theorem messageCreate_ignores_other_files (env : Env) (config : Config)
        (message : Message) (w : World) :
  Forall (fun attachment => isImage attachment = false) (attachments message) ->
  messageCreate env config message w = (Return tt, w).
Proof.
  intros Hnone. unfold messageCreate.
  repeat match goal with
         | |- context [if ?b then _ else _] => destruct b
         end; try reflexivity.
  induction Hnone as [|attachment rest Hone _ IH]; [reflexivity |].
  simpl forEach.
  rewrite (bind_Return _ _ w tt w); [exact IH |].
  now rewrite (handleAttachment_other env config _ _ Hone).
Qed.

Lemma messageCreate_ignores_other_files_notes :
  messageCreate envA config0
    {| msg_id := "m4"; author_bot := false; channel_id := "general";
       attachments := [notes] |} world0
  = (Return tt, world0).
Proof.
  apply messageCreate_ignores_other_files. repeat constructor.
Defined.
